(** * Simpleblock: a shallow embedding of [blockchain.py]

    The [Blockchain] class keeps a chain of blocks and a list of pending
    transactions.  Blocks are hashed with SHA-256 over their key-sorted JSON
    text, and a proof of work is an integer whose decimal text, followed by
    the previous proof's, hashes to a digest that starts with four zeros.

    The development has three layers:
    - [Sha256]: [hashlib.sha256(...).hexdigest()] on byte strings (FIPS 180-4);
    - [PyVal] and [dumps]: Python values and [json.dumps(..., sort_keys=True)];
    - [Blockchain]: the methods of the class, over a store of list objects. *)

From Stdlib Require Import ZArith List String Ascii Lia DecimalString Permutation.
From Stdlib Require Import Sorted DecimalZ.
From stdpp Require Import base gmap list strings.

Set Warnings "-register-all".
Local Open Scope Z_scope.

(** ** Text helpers *)

(** [bytes.encode()] on text that is ASCII: one byte per character. *)
Definition encode (s : string) : list Z :=
  map (fun c => Z.of_N (N_of_ascii c)) (list_ascii_of_string s).

(** [str(n)] for a Python [int]: decimal digits, a leading minus sign for
    negative numbers. *)
Definition str_int (n : Z) : string := NilZero.string_of_int (Z.to_int n).

(** ** SHA-256 *)

Module Sha256.

Definition wrap32 (x : Z) : Z := x mod 2 ^ 32.
Definition add32 (x y : Z) : Z := wrap32 (x + y).
Definition rotr (n x : Z) : Z :=
  Z.lor (Z.shiftr x n) (wrap32 (Z.shiftl x (32 - n))).
Definition shr (n x : Z) : Z := Z.shiftr x n.

Definition Ch (x y z : Z) : Z :=
  Z.lxor (Z.land x y) (Z.land (Z.lxor x 0xffffffff) z).
Definition Maj (x y z : Z) : Z :=
  Z.lxor (Z.lxor (Z.land x y) (Z.land x z)) (Z.land y z).
Definition Sigma0 (x : Z) : Z := Z.lxor (Z.lxor (rotr 2 x) (rotr 13 x)) (rotr 22 x).
Definition Sigma1 (x : Z) : Z := Z.lxor (Z.lxor (rotr 6 x) (rotr 11 x)) (rotr 25 x).
Definition sigma0 (x : Z) : Z := Z.lxor (Z.lxor (rotr 7 x) (rotr 18 x)) (shr 3 x).
Definition sigma1 (x : Z) : Z := Z.lxor (Z.lxor (rotr 17 x) (rotr 19 x)) (shr 10 x).

(** The round constants: the first 32 bits of the fractional parts of the
    cube roots of the first 64 primes. *)
Definition primes : list Z :=
  [2; 3; 5; 7; 11; 13; 17; 19; 23; 29; 31; 37; 41; 43; 47; 53;
   59; 61; 67; 71; 73; 79; 83; 89; 97; 101; 103; 107; 109; 113; 127; 131;
   137; 139; 149; 151; 157; 163; 167; 173; 179; 181; 191; 193; 197; 199; 211; 223;
   227; 229; 233; 239; 241; 251; 257; 263; 269; 271; 277; 281; 283; 293; 307; 311].

(** The integer cube root of [n], one bit at a time from bit [bits - 1]. *)
Fixpoint cube_root (bits : nat) (n r : Z) : Z :=
  match bits with
  | O => r
  | S bits' =>
      let r' := r + 2 ^ Z.of_nat bits' in
      if r' * r' * r' <=? n then cube_root bits' n r' else cube_root bits' n r
  end.

Definition K : list Z :=
  Eval vm_compute in map (fun p => wrap32 (cube_root 40 (p * 2 ^ 96) 0)) primes.

(** The eight working words a..h. *)
Record state := State {
  ha : Z; hb : Z; hc : Z; hd : Z; he : Z; hf : Z; hg : Z; hh : Z }.

Definition H0 : state :=
  State 0x6a09e667 0xbb67ae85 0x3c6ef372 0xa54ff53a
        0x510e527f 0x9b05688c 0x1f83d9ab 0x5be0cd19.

(** Message padding: a [0x80] byte, zero bytes up to 56 modulo 64, then the
    bit length as eight big-endian bytes. *)
Definition be_bytes (n : nat) (x : Z) : list Z :=
  map (fun i => Z.land (Z.shiftr x (8 * Z.of_nat i)) 255) (rev (seq 0 n)).

Definition pad (msg : list Z) : list Z :=
  let len := Z.of_nat (length msg) in
  msg ++ [0x80] ++ repeat 0 (Z.to_nat ((55 - len) mod 64)) ++ be_bytes 8 (8 * len).

(** Big-endian 32-bit words of a byte string (a trailing partial word is
    dropped; padded messages have none). *)
Fixpoint words (bs : list Z) : list Z :=
  match bs with
  | b3 :: b2 :: b1 :: b0 :: rest =>
      (Z.shiftl b3 24 + Z.shiftl b2 16 + Z.shiftl b1 8 + b0) :: words rest
  | _ => []
  end.

(** Message schedule.  [w] holds the words computed so far, newest first. *)
Fixpoint schedule (n : nat) (w : list Z) : list Z :=
  match n with
  | O => rev w
  | S n' =>
      let x := add32 (add32 (add32 (sigma1 (nth 1 w 0)) (nth 6 w 0))
                            (sigma0 (nth 14 w 0))) (nth 15 w 0) in
      schedule n' (x :: w)
  end.

Definition round (s : state) (kw : Z * Z) : state :=
  let t1 := add32 (add32 (add32 (add32 (hh s) (Sigma1 (he s)))
                                (Ch (he s) (hf s) (hg s))) (fst kw)) (snd kw) in
  let t2 := add32 (Sigma0 (ha s)) (Maj (ha s) (hb s) (hc s)) in
  State (add32 t1 t2) (ha s) (hb s) (hc s) (add32 (hd s) t1) (he s) (hf s) (hg s).

Definition compress (h : state) (block : list Z) : state :=
  let w := schedule 48 (rev (words block)) in
  let s := fold_left round (combine K w) h in
  State (add32 (ha h) (ha s)) (add32 (hb h) (hb s)) (add32 (hc h) (hc s))
        (add32 (hd h) (hd s)) (add32 (he h) (he s)) (add32 (hf h) (hf s))
        (add32 (hg h) (hg s)) (add32 (hh h) (hh s)).

Fixpoint blocks (n : nat) (h : state) (bs : list Z) : state :=
  match n with
  | O => h
  | S n' => blocks n' (compress h (take 64 bs)) (drop 64 bs)
  end.

(** [hashlib.sha256(msg).digest()]: 32 bytes. *)
Definition digest (msg : list Z) : list Z :=
  let p := pad msg in
  let h := blocks (length p / 64)%nat H0 p in
  be_bytes 4 (ha h) ++ be_bytes 4 (hb h) ++ be_bytes 4 (hc h) ++ be_bytes 4 (hd h) ++
  be_bytes 4 (he h) ++ be_bytes 4 (hf h) ++ be_bytes 4 (hg h) ++ be_bytes 4 (hh h).

Definition hexdigit (d : Z) : ascii :=
  match String.get (Z.to_nat d) "0123456789abcdef" with
  | Some c => c
  | None => "0"%char
  end.

Definition hex_byte (b : Z) : list ascii :=
  [hexdigit (Z.land (Z.shiftr b 4) 15); hexdigit (Z.land b 15)].

(** [hashlib.sha256(msg).hexdigest()]. *)
Definition hexdigest (msg : list Z) : string :=
  string_of_list_ascii (flat_map hex_byte (digest msg)).

End Sha256.

(** ** Python values and [json.dumps] *)

(** A Python [str]: its code points. *)
Definition pystr := list N.

(** A string literal of the source (ASCII). *)
Definition py (s : string) : pystr := map N_of_ascii (list_ascii_of_string s).

(** [str] comparison: lexicographic on code points. *)
Fixpoint pystr_leb (a b : pystr) : bool :=
  match a, b with
  | [], _ => true
  | _ :: _, [] => false
  | x :: a', y :: b' =>
      if (x <? y)%N then true else if (y <? x)%N then false else pystr_leb a' b'
  end.

Definition dquote : string := String (ascii_of_N 34) EmptyString.

(** ['{0:04x}'.format(n)] for [n < 0x10000]. *)
Definition hex4 (n : N) : string :=
  let z := Z.of_N n in
  string_of_list_ascii
    [Sha256.hexdigit (Z.land (Z.shiftr z 12) 15); Sha256.hexdigit (Z.land (Z.shiftr z 8) 15);
     Sha256.hexdigit (Z.land (Z.shiftr z 4) 15); Sha256.hexdigit (Z.land z 15)].

(** The replacement of one character by [json.encoder]'s
    [encode_basestring_ascii]: the short escapes, printable ASCII as it is,
    [\uXXXX] for the rest, as a surrogate pair above the basic plane. *)
Definition escape_char (c : N) : string :=
  if (c =? 0x5c)%N then "\\"
  else if (c =? 0x22)%N then String.append "\" dquote
  else if (c =? 0x08)%N then "\b"
  else if (c =? 0x0c)%N then "\f"
  else if (c =? 0x0a)%N then "\n"
  else if (c =? 0x0d)%N then "\r"
  else if (c =? 0x09)%N then "\t"
  else if ((0x20 <=? c) && (c <=? 0x7e))%N then String (ascii_of_N c) EmptyString
  else if (c <? 0x10000)%N then String.append "\u" (hex4 c)
  else
    let n := (c - 0x10000)%N in
    let s1 := N.lor 0xd800 (N.land (N.shiftr n 10) 0x3ff) in
    let s2 := N.lor 0xdc00 (N.land n 0x3ff) in
    String.append (String.append "\u" (hex4 s1)) (String.append "\u" (hex4 s2)).

Definition encode_basestring_ascii (s : pystr) : string :=
  String.append dquote (String.append (String.concat "" (map escape_char s)) dquote).

(** [sorted(dct.items())]: a stable insertion sort on the keys. *)
Fixpoint insert_item {V} (kv : pystr * V) (l : list (pystr * V)) : list (pystr * V) :=
  match l with
  | [] => [kv]
  | kv' :: l' =>
      if pystr_leb (fst kv) (fst kv') then kv :: l else kv' :: insert_item kv l'
  end.

Definition sorted_items {V} (d : list (pystr * V)) : list (pystr * V) :=
  foldr insert_item [] d.

Section WithFloat.

(** Python's [float] and its [repr], which [json] uses for floats (with the
    spellings [NaN], [Infinity] and [-Infinity]). *)
Variable float : Type.
Variable float_repr : float -> string.

(** The values [json.dumps] accepts.  A [dict] is its items in insertion
    order; the keys of the program's dicts are strings. *)
Inductive PyVal :=
| PNone
| PBool (b : bool)
| PInt (n : Z)
| PFloat (x : float)
| PStr (s : pystr)
| PList (l : list PyVal)
| PDict (d : list (pystr * PyVal)).

Definition dump_item (kv : pystr * string) : string :=
  String.append (encode_basestring_ascii (fst kv)) (String.append ": " (snd kv)).

(** [json.dumps(v, sort_keys=True)] with the default separators. *)
Fixpoint dumps (v : PyVal) : string :=
  match v with
  | PNone => "null"
  | PBool true => "true"
  | PBool false => "false"
  | PInt n => str_int n
  | PFloat x => float_repr x
  | PStr s => encode_basestring_ascii s
  | PList l => String.append "[" (String.append (String.concat ", " (map dumps l)) "]")
  | PDict d =>
      let items := sorted_items (map (fun kv => (fst kv, dumps (snd kv))) d) in
      String.append "{" (String.append (String.concat ", " (map dump_item items)) "}")
  end.

(** [Blockchain.hash]. *)
Definition hash (block : PyVal) : string :=
  let block_as_json_str := encode (dumps block) in
  Sha256.hexdigest block_as_json_str.

(** Two values with the same logical content: equal, up to the insertion
    order of the items of their dicts (at any depth). *)
Inductive same_content : PyVal -> PyVal -> Prop :=
| same_refl v : same_content v v
| same_list l1 l2 :
    Forall2 same_content l1 l2 -> same_content (PList l1) (PList l2)
| same_dict d1 d d2 :
    NoDup (map fst d1) ->
    Permutation d1 d ->
    Forall2 (fun kv1 kv2 => fst kv1 = fst kv2 /\ same_content (snd kv1) (snd kv2)) d d2 ->
    same_content (PDict d1) (PDict d2).

End WithFloat.

Arguments PNone {float}.
Arguments PBool {float} b.
Arguments PInt {float} n.
Arguments PFloat {float} x.
Arguments PStr {float} s.
Arguments PList {float} l.
Arguments PDict {float} d.
Arguments dumps {float} float_repr v.
Arguments hash {float} float_repr block.
Arguments same_content {float} v1 v2.

(** ** The proof of work *)

(** [Blockchain.is_valid_proof]: the text of [proof] then of [last_proof],
    hashed; valid when the digest's first four characters are zeros. *)
Definition is_valid_proof (last_proof proof : Z) : bool :=
  let encoded := encode (String.append (str_int proof) (str_int last_proof)) in
  let hashed := Sha256.hexdigest encoded in
  String.eqb (substring 0 4 hashed) "0000".

(** The [while] loop of [Blockchain.proof_of_work], run for at most [fuel]
    tests of the condition; [None] when the fuel runs out first. *)
Fixpoint proof_of_work_loop (fuel : nat) (last_proof proof : Z) : option Z :=
  match fuel with
  | O => None
  | S fuel' =>
      if is_valid_proof last_proof proof then Some proof
      else proof_of_work_loop fuel' last_proof (proof + 1)
  end.

(** [Blockchain.proof_of_work]: the loop entered with [proof = 0]. *)
Definition proof_of_work (fuel : nat) (last_proof : Z) : option Z :=
  proof_of_work_loop fuel last_proof 0.

(** ** The ledger *)

(** Exceptions the methods can raise. *)
Inductive exn := IndexError.

Inductive result (A : Type) :=
| Ok (a : A)
| Raise (e : exn).
Arguments Ok {A} a.
Arguments Raise {A} e.

(** The identity of a Python [list] object. *)
Definition loc := positive.

Section Ledger.

Variable float : Type.
Variable float_repr : float -> string.

(** A block, the [dict] built in [new_block].  Its [transactions] entry is a
    reference to a list object, the others are values. *)
Record Block := {
  index : Z;
  timestamp : float;
  transactions : loc;
  proof : PyVal float;
  previous_hash : PyVal float }.

(** A [Blockchain] object together with the transaction lists it can reach:
    [lists] is the store of these list objects, [chain] and
    [current_transactions] are the attributes. *)
Record Blockchain := {
  lists : gmap loc (list (PyVal float));
  chain : list Block;
  current_transactions : loc }.

(** [Blockchain.last_block]: [self.chain[-1]]. *)
Definition last_block (self : Blockchain) : result Block :=
  match last (chain self) with
  | Some block => Ok block
  | None => Raise IndexError
  end.

(** [Blockchain.new_block(proof, previous_hash)], with [now] the reading of
    [time()].  The block keeps the reference held by [current_transactions];
    the attribute is then bound to a new empty list. *)
Definition new_block (self : Blockchain) (now : float)
    (proof previous_hash : PyVal float) : Blockchain * Block :=
  let block := {|
    index := Z.of_nat (length (chain self)) + 1;
    timestamp := now;
    transactions := current_transactions self;
    proof := proof;
    previous_hash := previous_hash |} in
  let l := fresh (dom (lists self)) in
  ({| lists := <[l := []]> (lists self);
      chain := chain self ++ [block];
      current_transactions := l |}, block).

(** A call of [new_block] with [previous_hash] given or left to its default,
    [None]. *)
Definition call_new_block (self : Blockchain) (now : float)
    (proof : PyVal float) (previous_hash : option (PyVal float)) : Blockchain * Block :=
  new_block self now proof (default PNone previous_hash).

(** [Blockchain.__init__]: two empty lists, then the origin block. *)
Definition init (now : float) : Blockchain :=
  let l := fresh (dom (∅ : gmap loc (list (PyVal float)))) in
  let self := {| lists := {[l := []]}; chain := []; current_transactions := l |} in
  fst (call_new_block self now (PInt 100) (Some (PInt 1))).

(** The dict literal of [new_transaction]. *)
Definition transaction (sender recipient amount : PyVal float) : PyVal float :=
  PDict [(py "sender", sender); (py "recipient", recipient); (py "amount", amount)].

(** [Blockchain.new_transaction]: the append happens in place, on the list
    object [current_transactions] refers to; then [last_block] is read. *)
Definition new_transaction (self : Blockchain)
    (sender recipient amount : PyVal float) : Blockchain * result Z :=
  let tx := transaction sender recipient amount in
  let self' := {|
    lists := alter (fun l => l ++ [tx]) (current_transactions self) (lists self);
    chain := chain self;
    current_transactions := current_transactions self |} in
  (self', match last_block self' with
          | Ok block => Ok (index block + 1)
          | Raise e => Raise e
          end).

(** The value of a block as [json.dumps] sees it: the dict of [new_block],
    in the order of its literal, with the list read from the store. *)
Definition block_value (h : gmap loc (list (PyVal float))) (b : Block) : option (PyVal float) :=
  match h !! transactions b with
  | Some txs =>
      Some (PDict [(py "index", PInt (index b));
                   (py "timestamp", PFloat (timestamp b));
                   (py "transactions", PList txs);
                   (py "proof", proof b);
                   (py "previous_hash", previous_hash b)])
  | None => None
  end.

(** [Blockchain.hash(block)] on a block of the chain. *)
Definition hash_block (self : Blockchain) (b : Block) : option string :=
  hash float_repr <$> block_value (lists self) b.

(** The states a [Blockchain] object goes through: construction, then any
    calls of [new_transaction] and [new_block]. *)
Inductive reachable : Blockchain -> Prop :=
| reach_init now : reachable (init now)
| reach_new_transaction self sender recipient amount :
    reachable self -> reachable (fst (new_transaction self sender recipient amount))
| reach_new_block self now proof previous_hash :
    reachable self -> reachable (fst (call_new_block self now proof previous_hash)).

(** A call of one of the two mutating methods, with its arguments. *)
Inductive op :=
| NewTransaction (sender recipient amount : PyVal float)
| NewBlock (now : float) (proof : PyVal float) (previous_hash : option (PyVal float)).

Definition step (self : Blockchain) (o : op) : Blockchain :=
  match o with
  | NewTransaction sender recipient amount =>
      fst (new_transaction self sender recipient amount)
  | NewBlock now proof previous_hash =>
      fst (call_new_block self now proof previous_hash)
  end.

Definition run (self : Blockchain) (ops : list op) : Blockchain :=
  foldl step self ops.

(** The caller's side of chaining: [new_block(proof, hash(last_block))]. *)
Inductive linked : Blockchain -> Prop :=
| linked_init now : linked (init now)
| linked_new_transaction self sender recipient amount :
    linked self -> linked (fst (new_transaction self sender recipient amount))
| linked_new_block self now proof block digest :
    linked self ->
    last_block self = Ok block ->
    hash_block self block = Some digest ->
    linked (fst (call_new_block self now proof (Some (PStr (py digest))))).

(** Every block after the first holds the hash of the block before it. *)
Definition chain_linked (self : Blockchain) : Prop :=
  forall (i : nat) (prev block : Block),
    chain self !! i = Some prev ->
    chain self !! S i = Some block ->
    exists digest : string,
      hash_block self prev = Some digest /\ previous_hash block = PStr (py digest).

(** What holds of the store in every state: the pending list exists; the
    list of every block exists and is not the pending list; the block at
    position [i] (from 0) has index [i + 1]; no two blocks share a list. *)
Record store_inv (self : Blockchain) : Prop := {
  inv_pending : is_Some (lists self !! current_transactions self);
  inv_blocks : forall b : Block, b ∈ chain self ->
    is_Some (lists self !! transactions b) /\ transactions b <> current_transactions self;
  inv_index : forall (i : nat) (b : Block),
    chain self !! i = Some b -> index b = Z.of_nat i + 1;
  inv_distinct : NoDup (map transactions (chain self)) }.

(** The arguments of one [new_transaction] call. *)
Definition submission : Type := PyVal float * PyVal float * PyVal float.

Definition submit (self : Blockchain) (t : submission) : Blockchain :=
  fst (new_transaction self (fst (fst t)) (snd (fst t)) (snd t)).

(** [new_transaction] called once per element, in order. *)
Definition submit_all (self : Blockchain) (ts : list submission) : Blockchain :=
  foldl submit self ts.

Definition submitted (t : submission) : PyVal float :=
  transaction (fst (fst t)) (snd (fst t)) (snd t).

End Ledger.

Arguments index {float} b.
Arguments timestamp {float} b.
Arguments transactions {float} b.
Arguments proof {float} b.
Arguments previous_hash {float} b.
Arguments lists {float} b.
Arguments chain {float} b.
Arguments current_transactions {float} b.
Arguments last_block {float} self.
Arguments new_block {float} self now proof previous_hash.
Arguments call_new_block {float} self now proof previous_hash.
Arguments init {float} now.
Arguments new_transaction {float} self sender recipient amount.
Arguments block_value {float} h b.
Arguments hash_block {float} float_repr self b.
Arguments reachable {float} self.
Arguments transaction {float} sender recipient amount.
Arguments NewTransaction {float} sender recipient amount.
Arguments NewBlock {float} now proof previous_hash.
Arguments step {float} self o.
Arguments run {float} self ops.
Arguments linked {float} float_repr self.
Arguments chain_linked {float} float_repr self.
Arguments reach_init {float} now.
Arguments reach_new_transaction {float} self sender recipient amount _.
Arguments reach_new_block {float} self now proof previous_hash _.
Arguments linked_init {float} float_repr now.
Arguments linked_new_transaction {float} float_repr self sender recipient amount _.
Arguments linked_new_block {float} float_repr self now proof block digest _ _ _.
Arguments store_inv {float} self.
Arguments inv_pending {float} self s.
Arguments inv_blocks {float} self s b.
Arguments inv_index {float} self s i b.
Arguments inv_distinct {float} self s.
Arguments submission float : clear implicits.
Arguments submit {float} self t.
Arguments submit_all {float} self ts.
Arguments submitted {float} t.

(** The characters of [hexdigest]. *)
Definition lower_hex (c : ascii) : Prop :=
  In c (list_ascii_of_string "0123456789abcdef").

(** ** A concrete clock

    Timestamps that are whole numbers of seconds, as integers; the [repr] of
    such a float ends in [.0] (below 1e16, where Python switches to the
    exponent form). *)
Definition repr_whole (t : Z) : string := String.append (str_int t) ".0".

(** A new ledger, made at time 0. *)
Definition genesis_ledger : Blockchain Z := init 0.

(** One transaction submitted. *)
Definition pending_ledger : Blockchain Z :=
  fst (new_transaction genesis_ledger (PStr (py "A")) (PStr (py "B")) (PInt 5)).

(** A block minted with the found proof and the hash of the origin block. *)
Definition scenario_ledger : Blockchain Z :=
  fst (call_new_block pending_ledger 1 (PInt 52838)
         (Some (PStr (py "81a44a59637be5d464b5b6b5dba3a1c3613a6ae8f7bdd417876417a2cd3179fd")))).

(** A block minted without the [previous_hash] argument. *)
Definition unlinked_ledger : Blockchain Z :=
  fst (call_new_block genesis_ledger 1 (PInt 0) None).

(** ** Views of a ledger *)

Section Views.

Context {float : Type}.

(** The object inside [__init__] before the origin block is made: both
    attributes are empty lists. *)
Definition blank : Blockchain float :=
  let l := fresh (dom (∅ : gmap loc (list (PyVal float)))) in
  {| lists := {[l := []]}; chain := []; current_transactions := l |}.

(** The contents of the list [current_transactions] refers to. *)
Definition pending (self : Blockchain float) : list (PyVal float) :=
  default [] (lists self !! current_transactions self).

(** The contents of the list a block refers to. *)
Definition block_transactions (self : Blockchain float) (b : Block float) : list (PyVal float) :=
  default [] (lists self !! transactions b).

(** Every transaction the ledger holds: those of the blocks, in chain order,
    then the pending ones. *)
Definition ledger_transactions (self : Blockchain float) : list (PyVal float) :=
  flat_map (block_transactions self) (chain self) ++ pending self.

(** The transaction a call submits, if it is a [new_transaction]. *)
Definition op_transactions (o : op float) : list (PyVal float) :=
  match o with
  | NewTransaction sender recipient amount => [transaction sender recipient amount]
  | NewBlock _ _ _ => []
  end.

Definition is_mint (o : op float) : bool :=
  match o with
  | NewTransaction _ _ _ => false
  | NewBlock _ _ _ => true
  end.

(** The number of [new_block] calls among [ops]. *)
Definition mints (ops : list (op float)) : nat := length (List.filter is_mint ops).

(** The list objects of the store are the pending list and the lists of the
    blocks, and nothing else. *)
Definition owned (self : Blockchain float) : Prop :=
  dom (lists self)
  = {[current_transactions self]} ∪ list_to_set (map transactions (chain self)).

End Views.

(** ** Text of the dump *)

(** Printable ASCII, the characters [json.dumps] emits by default. *)
Definition printable (c : ascii) : bool :=
  let n := N_of_ascii c in ((32 <=? n) && (n <=? 126))%N.

Definition ascii_text (s : string) : bool :=
  forallb printable (list_ascii_of_string s).

(** One [key: value] item of a dumped dict, for a key without escapes. *)
Definition json_field (name text : string) : string :=
  String.append dquote (String.append name (String.append dquote (String.append ": " text))).

(** The text [is_valid_proof] hashes, the f-string of [proof] then
    [last_proof]. *)
Definition proof_text (last_proof proof : Z) : string :=
  String.append (str_int proof) (str_int last_proof).

(** [int(s)] for the text of an integer. *)
Definition int_of_str (s : string) : option Z :=
  Z.of_int <$> NilZero.int_of_string s.

(** Order of two items by their keys. *)
Definition item_le {V} (a b : pystr * V) : Prop := pystr_leb (fst a) (fst b) = true.

(** * Properties *)

(** ** Test vectors *)

Example round_constants :
  nth 0 Sha256.K 0 = 0x428a2f98 /\ nth 1 Sha256.K 0 = 0x71374491 /\
  nth 63 Sha256.K 0 = 0xc67178f2 /\ length Sha256.K = 64%nat.
Proof. repeat split. Qed.

Example sha256_empty :
  Sha256.hexdigest (encode "") =
  "e3b0c44298fc1c149afbf4c8996fb92427ae41e4649b934ca495991b7852b855"%string.
Proof. vm_compute. reflexivity. Qed.

Example sha256_abc :
  Sha256.hexdigest (encode "abc") =
  "ba7816bf8f01cfea414140de5dae2223b00361a396177a9cb410ff61f20015ad"%string.
Proof. vm_compute. reflexivity. Qed.

Example sha256_two_blocks :
  Sha256.hexdigest (encode "abcdbcdecdefdefgefghfghighijhijkijkljklmklmnlmnomnopnopq") =
  "248d6a61d20638b8e5c026930c3e6039a33ce45964ff2167f6ecedd419db06c1"%string.
Proof. vm_compute. reflexivity. Qed.

Example sha256_a55 :
  Sha256.hexdigest (repeat 97 55) =
  "9f4390f8d30c2dd92ec9f095b65e2b9ae9b0a925a5258e241c9f1e910f734318"%string.
Proof. vm_compute. reflexivity. Qed.

Example sha256_a56 :
  Sha256.hexdigest (repeat 97 56) =
  "b35439a4ac6f0948b6d6f9e3c6af0f5f590ce20f1bde7090ef7970686ec6738a"%string.
Proof. vm_compute. reflexivity. Qed.

Example sha256_a64 :
  Sha256.hexdigest (repeat 97 64) =
  "ffe054fe7ae0cb6dc65c3af9b61d5209f439851db43d0ba5997337df154668eb"%string.
Proof. vm_compute. reflexivity. Qed.

Example sha256_a120 :
  Sha256.hexdigest (repeat 97 120) =
  "2f3d335432c70b580af0e8e1b3674a7c020d683aa5f73aaaedfdc55af904c21c"%string.
Proof. vm_compute. reflexivity. Qed.

Example str_int_examples :
  str_int 0 = "0"%string /\ str_int 100 = "100"%string /\ str_int (-42) = "-42"%string.
Proof. vm_compute. auto. Qed.

(** ** The digest is 64 lowercase hexadecimal characters *)

Lemma string_of_list_ascii_length (l : list ascii) :
  String.length (string_of_list_ascii l) = length l.
Proof. induction l as [|c l IH]; simpl; [reflexivity | now rewrite IH]. Qed.

Lemma flat_map_hex_byte_length (bs : list Z) :
  length (flat_map Sha256.hex_byte bs) = (2 * length bs)%nat.
Proof. induction bs as [|b bs IH]; simpl; [reflexivity | rewrite IH; lia]. Qed.

Lemma be_bytes_length (n : nat) (x : Z) : length (Sha256.be_bytes n x) = n.
Proof.
  unfold Sha256.be_bytes.
  now rewrite length_map, length_rev, length_seq.
Qed.

Lemma digest_length (msg : list Z) : length (Sha256.digest msg) = 32%nat.
Proof.
  unfold Sha256.digest. cbv zeta.
  repeat rewrite length_app. repeat rewrite be_bytes_length. reflexivity.
Qed.

Lemma hexdigest_length (msg : list Z) :
  String.length (Sha256.hexdigest msg) = 64%nat.
Proof.
  unfold Sha256.hexdigest.
  rewrite string_of_list_ascii_length, flat_map_hex_byte_length, digest_length.
  reflexivity.
Qed.

Lemma land_15_range (x : Z) : 0 <= Z.land x 15 < 16.
Proof.
  change 15 with (Z.ones 4). rewrite Z.land_ones by lia.
  apply Z.mod_pos_bound. reflexivity.
Qed.

Lemma hexdigit_lower_hex (d : Z) : 0 <= d < 16 -> lower_hex (Sha256.hexdigit d).
Proof.
  intros Hd. unfold lower_hex.
  assert (Hcases : d = 0 \/ d = 1 \/ d = 2 \/ d = 3 \/ d = 4 \/ d = 5 \/ d = 6 \/ d = 7 \/
                   d = 8 \/ d = 9 \/ d = 10 \/ d = 11 \/ d = 12 \/ d = 13 \/ d = 14 \/ d = 15)
    by lia.
  repeat (destruct Hcases as [-> | Hcases]; [vm_compute; tauto |]).
  subst d. vm_compute. tauto.
Qed.

Lemma hex_byte_lower_hex (b : Z) : Forall lower_hex (Sha256.hex_byte b).
Proof.
  unfold Sha256.hex_byte.
  constructor; [apply hexdigit_lower_hex, land_15_range |].
  constructor; [apply hexdigit_lower_hex, land_15_range | constructor].
Qed.

Lemma hexdigest_lower_hex (msg : list Z) :
  Forall lower_hex (list_ascii_of_string (Sha256.hexdigest msg)).
Proof.
  unfold Sha256.hexdigest. rewrite list_ascii_of_string_of_list_ascii.
  induction (Sha256.digest msg) as [|b bs IH]; simpl.
  - constructor.
  - constructor; [apply hexdigit_lower_hex, land_15_range |].
    constructor; [apply hexdigit_lower_hex, land_15_range | exact IH].
Qed.

(** A string of length at least four starts with four characters. *)
Lemma string_four_chars (s : string) :
  (4 <= String.length s)%nat ->
  exists c0 c1 c2 c3 r, s = String c0 (String c1 (String c2 (String c3 r))).
Proof.
  destruct s as [|c0 [|c1 [|c2 [|c3 r]]]]; simpl; try lia.
  intros _. now exists c0, c1, c2, c3, r.
Qed.

(** ** The validity predicate *)

(** C2: [is_valid_proof last_proof proof] is true exactly when each of the
    first four characters of the SHA-256 hex digest of the decimal text of
    [proof] followed by the decimal text of [last_proof] is the character 0. *)
Theorem is_valid_proof_iff (last_proof proof : Z) :
  is_valid_proof last_proof proof = true <->
  forall i : nat, (i < 4)%nat ->
    String.get i (Sha256.hexdigest
                    (encode (String.append (str_int proof) (str_int last_proof))))
    = Some "0"%char.
Proof.
  unfold is_valid_proof. cbv zeta.
  set (hashed := Sha256.hexdigest _).
  destruct (string_four_chars hashed) as (c0 & c1 & c2 & c3 & r & Hs).
  { unfold hashed. rewrite hexdigest_length. lia. }
  rewrite Hs. cbn [substring String.get]. rewrite String.eqb_eq. split.
  - intros Heq i Hi. injection Heq as -> -> -> ->.
    destruct i as [|[|[|[|i]]]]; try reflexivity; lia.
  - intros Hget.
    pose proof (Hget 0%nat ltac:(lia)) as H0.
    pose proof (Hget 1%nat ltac:(lia)) as H1.
    pose proof (Hget 2%nat ltac:(lia)) as H2.
    pose proof (Hget 3%nat ltac:(lia)) as H3.
    cbn in H0, H1, H2, H3.
    injection H0 as ->. injection H1 as ->. injection H2 as ->. injection H3 as ->.
    now destruct r.
Qed.

Example is_valid_proof_genesis : is_valid_proof 100 52838 = true.
Proof. vm_compute. reflexivity. Qed.

Example is_valid_proof_order : is_valid_proof 52838 100 = false.
Proof. vm_compute. reflexivity. Qed.

(** ** The proof-of-work search *)

(** The loop started at [p] with more fuel than the distance to the first
    valid proof [r] stops there. *)
Lemma proof_of_work_loop_finds (last_proof r : Z) (fuel : nat) :
  forall p : Z,
    p <= r ->
    (Z.to_nat (r - p) < fuel)%nat ->
    is_valid_proof last_proof r = true ->
    (forall q, p <= q < r -> is_valid_proof last_proof q = false) ->
    proof_of_work_loop fuel last_proof p = Some r.
Proof.
  induction fuel as [|fuel IH]; intros p Hle Hfuel Hr Hmin; [lia |].
  cbn [proof_of_work_loop]. destruct (Z.eq_dec p r) as [-> | Hne].
  - now rewrite Hr.
  - rewrite (Hmin p) by lia. apply IH; try assumption; try lia.
    intros q Hq. apply Hmin. lia.
Qed.

(** Among the naturals below a bound that satisfy a decidable property, there
    is a least one. *)
Lemma least_valid (P : nat -> bool) (n : nat) :
  P n = true ->
  exists m : nat, (m <= n)%nat /\ P m = true /\ forall k : nat, (k < m)%nat -> P k = false.
Proof.
  induction n as [n IH] using (well_founded_induction lt_wf). intros Hn.
  destruct (List.existsb P (seq 0 n)) eqn:Hex.
  - apply existsb_exists in Hex as (k & Hin & Hk).
    apply in_seq in Hin.
    destruct (IH k ltac:(lia) Hk) as (m & Hle & Hm & Hmin).
    exists m. split; [lia | tauto].
  - exists n. split; [lia |]. split; [assumption |].
    intros k Hk. destruct (P k) eqn:HPk; [| reflexivity].
    assert (List.existsb P (seq 0 n) = true) as Hyes; [| congruence].
    apply existsb_exists. exists k. split; [| assumption].
    apply in_seq. lia.
Qed.

(** The loop started at [p] with no more fuel than the distance to the
    first valid proof [r] runs out of fuel. *)
Lemma proof_of_work_loop_short (last_proof r : Z) (fuel : nat) :
  forall p : Z,
    (fuel <= Z.to_nat (r - p))%nat ->
    (forall q, p <= q < r -> is_valid_proof last_proof q = false) ->
    proof_of_work_loop fuel last_proof p = None.
Proof.
  induction fuel as [|fuel IH]; intros p Hfuel Hmin; [reflexivity |].
  cbn [proof_of_work_loop]. rewrite (Hmin p) by lia.
  apply IH; [lia |]. intros q Hq. apply Hmin. lia.
Qed.

(** C3: when some non-negative integer is a valid proof for [last_proof],
    the search started at 0 terminates and returns the smallest non-negative
    valid proof [r]: it returns [r] as soon as it may test the condition
    [r + 1] times (for 0, 1, ..., r), and no earlier. *)
Theorem proof_of_work_smallest (last_proof : Z) :
  (exists p : Z, 0 <= p /\ is_valid_proof last_proof p = true) ->
  exists r : Z,
    0 <= r /\
    is_valid_proof last_proof r = true /\
    (forall q : Z, 0 <= q < r -> is_valid_proof last_proof q = false) /\
    (forall fuel : nat,
        proof_of_work fuel last_proof
        = if (Z.to_nat r <? fuel)%nat then Some r else None).
Proof.
  intros (p & Hp & Hvalid).
  destruct (least_valid (fun n => is_valid_proof last_proof (Z.of_nat n)) (Z.to_nat p))
    as (m & _ & Hm & Hmin).
  { now rewrite Z2Nat.id. }
  assert (Hbelow : forall q : Z, 0 <= q < Z.of_nat m -> is_valid_proof last_proof q = false).
  { intros q Hq. rewrite <- (Z2Nat.id q) by lia. apply Hmin. lia. }
  exists (Z.of_nat m). split; [lia |]. split; [exact Hm |]. split; [exact Hbelow |].
  intros fuel. unfold proof_of_work. rewrite Nat2Z.id.
  destruct (Nat.ltb_spec m fuel) as [Hlt | Hge].
  - apply proof_of_work_loop_finds; try assumption; lia.
  - apply proof_of_work_loop_short with (r := Z.of_nat m); [lia | exact Hbelow].
Qed.

(** With no valid proof from [p] on, the loop never returns. *)
Lemma proof_of_work_loop_none (last_proof : Z) (fuel : nat) :
  forall p : Z,
    (forall q, p <= q -> is_valid_proof last_proof q = false) ->
    proof_of_work_loop fuel last_proof p = None.
Proof.
  induction fuel as [|fuel IH]; intros p Hnone; [reflexivity |].
  cbn [proof_of_work_loop]. rewrite (Hnone p) by lia. apply IH. intros q Hq. apply Hnone. lia.
Qed.

Lemma proof_of_work_smallest_witness :
  (exists p : Z, 0 <= p /\ is_valid_proof 20287 p = true) /\
  exists r : Z,
    0 <= r /\
    is_valid_proof 20287 r = true /\
    (forall q : Z, 0 <= q < r -> is_valid_proof 20287 q = false) /\
    (forall fuel : nat,
        proof_of_work fuel 20287 = if (Z.to_nat r <? fuel)%nat then Some r else None).
Proof.
  assert (H : exists p : Z, 0 <= p /\ is_valid_proof 20287 p = true).
  { exists 5. split; [lia | vm_compute; reflexivity]. }
  split; [exact H | exact (proof_of_work_smallest 20287 H)].
Defined.

Example proof_of_work_20287 :
  proof_of_work 6 20287 = Some 5 /\ proof_of_work 5 20287 = None.
Proof. vm_compute. split; reflexivity. Qed.

(** ** Key order and the sorted dump *)

Lemma pystr_leb_total (a b : pystr) : pystr_leb a b = false -> pystr_leb b a = true.
Proof.
  revert b. induction a as [|x a IH]; intros [|y b]; simpl; try congruence.
  destruct (N.ltb_spec x y), (N.ltb_spec y x); try congruence; try lia.
  apply IH.
Qed.

Lemma pystr_leb_antisym (a b : pystr) :
  pystr_leb a b = true -> pystr_leb b a = true -> a = b.
Proof.
  revert b. induction a as [|x a IH]; intros [|y b]; simpl; try congruence.
  destruct (N.ltb_spec x y), (N.ltb_spec y x); try congruence; try lia.
  intros Hab Hba. f_equal; [lia | now apply IH].
Qed.

Lemma pystr_leb_trans (a b c : pystr) :
  pystr_leb a b = true -> pystr_leb b c = true -> pystr_leb a c = true.
Proof.
  revert b c. induction a as [|x a IH]; intros [|y b] [|z c]; simpl; try congruence.
  destruct (N.ltb_spec x y), (N.ltb_spec y x), (N.ltb_spec y z), (N.ltb_spec z y),
    (N.ltb_spec x z), (N.ltb_spec z x); try congruence; try lia.
  apply IH.
Qed.

(** Saturates the context with the consequences of the key comparisons. *)
Ltac leb_saturate :=
  repeat match goal with
  | H : pystr_leb ?x ?y = false |- _ =>
      lazymatch goal with
      | _ : pystr_leb y x = true |- _ => fail
      | _ => pose proof (pystr_leb_total _ _ H)
      end
  | H1 : pystr_leb ?x ?y = true, H2 : pystr_leb ?y ?z = true |- _ =>
      lazymatch goal with
      | _ : pystr_leb x z = true |- _ => fail
      | _ => pose proof (pystr_leb_trans _ _ _ H1 H2)
      end
  end.

Ltac leb_absurd :=
  leb_saturate; try congruence;
  exfalso;
  match goal with
  | Hne : ?x <> ?y, H1 : pystr_leb ?x ?y = true, H2 : pystr_leb ?y ?x = true |- _ =>
      exact (Hne (pystr_leb_antisym _ _ H1 H2))
  end.

(** Inserting two items with different keys gives the same list in either
    order. *)
Lemma insert_item_comm {V} (a b : pystr * V) (l : list (pystr * V)) :
  fst a <> fst b ->
  insert_item a (insert_item b l) = insert_item b (insert_item a l).
Proof.
  intros Hne. induction l as [|c l IH]; simpl.
  - destruct (pystr_leb (fst a) (fst b)) eqn:Hab, (pystr_leb (fst b) (fst a)) eqn:Hba;
      try reflexivity; leb_absurd.
  - destruct (pystr_leb (fst b) (fst c)) eqn:Hbc, (pystr_leb (fst a) (fst c)) eqn:Hac;
      simpl; rewrite ?Hbc, ?Hac;
      destruct (pystr_leb (fst a) (fst b)) eqn:Hab, (pystr_leb (fst b) (fst a)) eqn:Hba;
      simpl; rewrite ?Hbc, ?Hac; try reflexivity; try (f_equal; exact IH); leb_absurd.
Qed.

(** The sorted items of a dict do not depend on its insertion order. *)
Lemma sorted_items_perm {V} (d1 d2 : list (pystr * V)) :
  Permutation d1 d2 -> NoDup (map fst d1) -> sorted_items d1 = sorted_items d2.
Proof.
  unfold sorted_items.
  induction 1 as [| x l l' _ IH | x y l | l l' l'' H1 IH1 H2 IH2]; intros Hnd; simpl.
  - reflexivity.
  - f_equal. apply IH. now inversion Hnd.
  - apply insert_item_comm. simpl in Hnd.
    inversion Hnd as [| ? ? Hnotin _]. subst. intros Heq. apply Hnotin. rewrite Heq. left.
  - rewrite IH1 by assumption. apply IH2.
    assert (Hp : map fst l ≡ₚ map fst l') by now apply Permutation_map.
    now rewrite <- Hp.
Qed.

Example sorted_items_block :
  map fst (sorted_items [(py "index", 1); (py "timestamp", 2); (py "transactions", 3);
                         (py "proof", 4); (py "previous_hash", 5)])
  = [py "index"; py "previous_hash"; py "proof"; py "timestamp"; py "transactions"].
Proof. reflexivity. Qed.

Section JsonProperties.

Context {float : Type} (float_repr : float -> string).

Lemma dumps_same_content :
  forall v1 v2, same_content v1 v2 -> dumps float_repr v1 = dumps float_repr v2.
Proof.
  fix IH 3. intros v1 v2 H. destruct H as [v | l1 l2 Hl | d1 d d2 Hnd Hp Hf].
  - reflexivity.
  - cbn [dumps]. do 3 f_equal.
    revert l1 l2 Hl. fix IHl 3. intros l1 l2 Hl.
    destruct Hl as [| x y l1 l2 Hxy Hl]; cbn [map]; [reflexivity |].
    f_equal; [exact (IH _ _ Hxy) | exact (IHl _ _ Hl)].
  - cbn [dumps]. do 4 f_equal.
    set (f := fun kv : pystr * PyVal float => (fst kv, dumps float_repr (snd kv))).
    transitivity (sorted_items (map f d)).
    + apply sorted_items_perm; [now apply Permutation_map |].
      rewrite map_map. exact Hnd.
    + f_equal. clear Hp Hnd d1.
      revert d d2 Hf. fix IHd 3. intros d d2 Hf.
      destruct Hf as [| x y d d2 [Hk Hv] Hf]; cbn [map]; [reflexivity |].
      f_equal; [| exact (IHd _ _ Hf)].
      unfold f. rewrite Hk. f_equal. exact (IH _ _ Hv).
Qed.

(** C6: [Blockchain.hash] gives the same digest for two values with the same
    content, whatever the insertion order of their keys (the dump sorts
    them), and every digest is 64 lowercase hexadecimal characters. *)
Theorem hash_canonical (v1 v2 : PyVal float) :
  same_content v1 v2 ->
  hash float_repr v1 = hash float_repr v2 /\
  String.length (hash float_repr v1) = 64%nat /\
  Forall lower_hex (list_ascii_of_string (hash float_repr v1)).
Proof.
  intros Hsame. unfold hash. cbv zeta. split; [| split].
  - now rewrite (dumps_same_content _ _ Hsame).
  - apply hexdigest_length.
  - apply hexdigest_lower_hex.
Qed.

End JsonProperties.

(** ** The ledger's invariant *)

Section LedgerProperties.

Context {float : Type} (float_repr : float -> string).
Implicit Types (self : Blockchain float) (b : Block float).

Lemma new_block_chain self now proof previous_hash :
  chain (fst (new_block self now proof previous_hash)) =
  chain self ++ [snd (new_block self now proof previous_hash)].
Proof. reflexivity. Qed.

Lemma new_transaction_chain self sender recipient amount :
  chain (fst (new_transaction self sender recipient amount)) = chain self.
Proof. reflexivity. Qed.

Lemma fresh_not_allocated self (l : loc) :
  is_Some (lists self !! l) -> l <> fresh (dom (lists self)).
Proof.
  intros Hl Heq. apply elem_of_dom in Hl. rewrite Heq in Hl.
  exact (is_fresh (dom (lists self)) Hl).
Qed.

Lemma new_block_inv self now proof previous_hash :
  store_inv self -> store_inv (fst (new_block self now proof previous_hash)).
Proof.
  intros [Hp Hb Hi Hd]. split; cbn [new_block fst lists chain current_transactions].
  - rewrite lookup_insert_eq. eauto.
  - intros b [Hin | Hnew]%elem_of_app.
    + destruct (Hb b Hin) as [Hsome _].
      pose proof (fresh_not_allocated self _ Hsome) as Hne.
      split; [| exact Hne]. now rewrite lookup_insert_ne.
    + apply list_elem_of_singleton in Hnew. subst b. cbn [transactions].
      pose proof (fresh_not_allocated self _ Hp) as Hne.
      split; [| exact Hne]. now rewrite lookup_insert_ne.
  - intros i b Hlook. apply lookup_app_Some in Hlook as [Hold | [Hlen Hnew]].
    + now apply Hi.
    + apply list_lookup_singleton_Some in Hnew as [Hz <-]. cbn [index]. lia.
  - rewrite map_app. apply NoDup_app. split; [exact Hd |]. split.
    + intros l Hl Hcur. cbn [map transactions] in Hcur.
      apply list_elem_of_singleton in Hcur. subst l.
      apply list_elem_of_fmap in Hl as (b & Heq & Hin).
      destruct (Hb b Hin) as [_ Hne]. congruence.
    + apply NoDup_singleton.
Qed.

Lemma new_transaction_inv self sender recipient amount :
  store_inv self -> store_inv (fst (new_transaction self sender recipient amount)).
Proof.
  intros [Hp Hb Hi Hd]. split; cbn [new_transaction fst lists chain current_transactions].
  - rewrite lookup_alter_eq. now apply fmap_is_Some.
  - intros b Hin. destruct (Hb b Hin) as [Hsome Hne].
    split; [| exact Hne]. now rewrite lookup_alter_ne.
  - exact Hi.
  - exact Hd.
Qed.

Lemma init_inv (now : float) : store_inv (init now).
Proof.
  unfold init, call_new_block. apply new_block_inv.
  split; cbn [lists chain current_transactions].
  - rewrite lookup_singleton_eq. eauto.
  - intros b Hin. now apply elem_of_nil in Hin.
  - intros i b Hlook. now rewrite lookup_nil in Hlook.
  - apply NoDup_nil_2.
Qed.

Lemma reachable_inv self : reachable self -> store_inv self.
Proof.
  induction 1 as [now | self sender recipient amount _ IH | self now proof ph _ IH].
  - apply init_inv.
  - now apply new_transaction_inv.
  - now apply new_block_inv.
Qed.

Lemma reachable_chain_nonempty self : reachable self -> chain self <> [].
Proof.
  induction 1 as [now | self sender recipient amount _ IH | self now proof ph _ IH].
  - discriminate.
  - exact IH.
  - unfold call_new_block. rewrite new_block_chain.
    intros Heq. now apply app_eq_nil in Heq as [_ Heq].
Qed.

Lemma step_inv self (o : op float) : store_inv self -> store_inv (step self o).
Proof.
  destruct o; [apply new_transaction_inv | apply new_block_inv].
Qed.

Lemma reachable_step self (o : op float) : reachable self -> reachable (step self o).
Proof. destruct o; intros H; now constructor. Qed.

Lemma reachable_run self (ops : list (op float)) :
  reachable self -> reachable (run self ops).
Proof.
  revert self. induction ops as [|o ops IH]; intros self H; [exact H |].
  apply IH. now apply reachable_step.
Qed.

(** A step keeps the blocks already in the chain, in place, and the contents
    of their transaction lists. *)
Lemma step_frame self (o : op float) (i : nat) b :
  store_inv self ->
  chain self !! i = Some b ->
  chain (step self o) !! i = Some b /\
  lists (step self o) !! transactions b = lists self !! transactions b.
Proof.
  intros Hinv Hlook.
  destruct (inv_blocks _ Hinv b) as [Hsome Hne]; [now apply list_elem_of_lookup_2 in Hlook |].
  destruct o as [sender recipient amount | now proof ph];
    cbn [step new_transaction call_new_block new_block fst lists chain].
  - split; [exact Hlook |]. now rewrite lookup_alter_ne.
  - split; [now apply lookup_app_l_Some |].
    rewrite lookup_insert_ne; [reflexivity |].
    intros Heq. symmetry in Heq. revert Heq. now apply fresh_not_allocated.
Qed.

Lemma run_frame (ops : list (op float)) : forall self (i : nat) b,
  store_inv self ->
  chain self !! i = Some b ->
  chain (run self ops) !! i = Some b /\
  lists (run self ops) !! transactions b = lists self !! transactions b.
Proof.
  induction ops as [|o ops IH]; intros self i b Hinv Hlook; [now split |].
  destruct (step_frame self o i b Hinv Hlook) as [Hchain Hlists].
  destruct (IH (step self o) i b (step_inv _ _ Hinv) Hchain) as [Hchain' Hlists'].
  change (run self (o :: ops)) with (run (step self o) ops).
  split; [exact Hchain' | now rewrite Hlists'].
Qed.

End LedgerProperties.

(** ** Construction, [last_block] and [new_transaction] *)

Section LedgerClaims.

Context {float : Type} (float_repr : float -> string).
Implicit Types (self : Blockchain float) (b : Block float).

(** C5: right after construction the chain is one block, the origin block,
    with index 1, previous hash 1, proof 100 and an empty transaction list
    (the pending list is a new, empty one); and no sequence of calls after
    construction makes the chain empty. *)
Theorem init_genesis (now : float) :
  (exists genesis : Block float,
      chain (init now) = [genesis] /\
      index genesis = 1 /\
      previous_hash genesis = PInt 1 /\
      proof genesis = PInt 100 /\
      timestamp genesis = now /\
      lists (init now) !! transactions genesis = Some [] /\
      lists (init now) !! current_transactions (init now) = Some []) /\
  (forall ops : list (op float), chain (run (init now) ops) <> []).
Proof.
  split.
  - eexists. split; [reflexivity |]. repeat split; reflexivity.
  - intros ops. apply reachable_chain_nonempty, reachable_run. constructor.
Qed.

Lemma reachable_last self :
  reachable self ->
  exists bs b, chain self = bs ++ [b] /\ index b = Z.of_nat (length (chain self)).
Proof.
  intros Hr. pose proof (reachable_chain_nonempty _ Hr) as Hne.
  destruct (exists_last Hne) as (bs & b & Heq).
  exists bs, b. split; [exact Heq |].
  rewrite (inv_index _ (reachable_inv _ Hr) (length bs) b).
  - rewrite Heq, length_app. simpl. lia.
  - rewrite Heq. apply list_lookup_middle. reflexivity.
Qed.

(** C7: [last_block] raises exactly when the chain is empty and otherwise
    returns the last block of the chain, which after a [new_block] is the
    block just made; in a reachable state it does not raise. *)
Theorem last_block_spec self :
  (last_block self = Raise IndexError <-> chain self = []) /\
  (forall bs b, chain self = bs ++ [b] -> last_block self = Ok b) /\
  (forall now proof previous_hash,
      last_block (fst (call_new_block self now proof previous_hash))
      = Ok (snd (call_new_block self now proof previous_hash))) /\
  (reachable self -> exists b, last_block self = Ok b).
Proof.
  unfold last_block. split; [split | split; [| split]].
  - destruct (last (chain self)) eqn:Hlast; [discriminate |].
    intros _. now apply last_None.
  - intros ->. reflexivity.
  - intros bs b Heq. now rewrite Heq, last_snoc.
  - intros now proof ph. unfold call_new_block.
    now rewrite new_block_chain, last_snoc.
  - intros Hr. destruct (reachable_last _ Hr) as (bs & b & Heq & _).
    exists b. now rewrite Heq, last_snoc.
Qed.

(** C8: in a reachable state [new_transaction] returns the length of the
    chain plus one and leaves the chain as it is; nothing is reserved: the
    next call returns the same number. *)
Theorem new_transaction_returns self (sender recipient amount : PyVal float) :
  reachable self ->
  snd (new_transaction self sender recipient amount)
    = Ok (Z.of_nat (length (chain self)) + 1) /\
  chain (fst (new_transaction self sender recipient amount)) = chain self /\
  (forall sender' recipient' amount' : PyVal float,
      snd (new_transaction (fst (new_transaction self sender recipient amount))
             sender' recipient' amount')
      = snd (new_transaction self sender recipient amount)).
Proof.
  intros Hr. destruct (reachable_last _ Hr) as (bs & b & Heq & Hidx).
  assert (Hret : forall s' (x y z : PyVal float), chain s' = chain self ->
            snd (new_transaction s' x y z) = Ok (Z.of_nat (length (chain self)) + 1)).
  { intros s' x y z Hc. cbn [new_transaction snd]. unfold last_block.
    cbn [chain]. rewrite Hc, Heq, last_snoc, <- Heq. now rewrite Hidx. }
  split; [now apply Hret |]. split; [reflexivity |].
  intros x y z. rewrite !Hret; reflexivity.
Qed.

(** ** The chain only grows *)

Lemma run_hash_block (ops : list (op float)) self (i : nat) b :
  store_inv self ->
  chain self !! i = Some b ->
  hash_block float_repr (run self ops) b = hash_block float_repr self b.
Proof.
  intros Hinv Hlook. unfold hash_block, block_value.
  now destruct (run_frame ops self i b Hinv Hlook) as [_ ->].
Qed.

(** C9: [new_transaction] leaves the chain unchanged; [new_block] appends
    exactly one block, the one it returns; and whatever calls follow, a block
    of the chain stays at its position with its fields, the contents of its
    transaction list and its hash unchanged. *)
Theorem chain_append_only self :
  reachable self ->
  (forall sender recipient amount,
      chain (fst (new_transaction self sender recipient amount)) = chain self) /\
  (forall now proof previous_hash,
      chain (fst (call_new_block self now proof previous_hash))
      = chain self ++ [snd (call_new_block self now proof previous_hash)]) /\
  (forall (ops : list (op float)) (i : nat) b,
      chain self !! i = Some b ->
      chain (run self ops) !! i = Some b /\
      lists (run self ops) !! transactions b = lists self !! transactions b /\
      hash_block float_repr (run self ops) b = hash_block float_repr self b).
Proof.
  intros Hr. pose proof (reachable_inv _ Hr) as Hinv.
  split; [reflexivity |]. split; [reflexivity |].
  intros ops i b Hlook.
  destruct (run_frame ops self i b Hinv Hlook) as [Hc Hl].
  repeat split; [exact Hc | exact Hl | now apply (run_hash_block ops self i)].
Qed.

(** C10: a call [new_block(proof)] that leaves [previous_hash] out appends a
    block whose [previous_hash] is [None], so not a digest string, in every
    state; and the origin block's [previous_hash] is the integer 1. *)
Theorem new_block_default_previous_hash self (now : float) (proof : PyVal float) :
  previous_hash (snd (call_new_block self now proof None)) = PNone /\
  chain (fst (call_new_block self now proof None))
    = chain self ++ [snd (call_new_block self now proof None)] /\
  (forall digest : string,
      previous_hash (snd (call_new_block self now proof None)) <> PStr (py digest)) /\
  (forall t : float, exists genesis : Block float,
      chain (init t) = [genesis] /\ previous_hash genesis = PInt 1).
Proof.
  repeat split; try reflexivity.
  - intros digest. discriminate.
  - intros t. eexists. split; reflexivity.
Qed.

End LedgerClaims.

(** ** Submitting, then minting *)

Section Minting.

Context {float : Type} (float_repr : float -> string).
Implicit Types (self : Blockchain float) (b : Block float).

Lemma submit_all_pending (ts : list (submission float)) : forall self (pool : list (PyVal float)),
  lists self !! current_transactions self = Some pool ->
  lists (submit_all self ts) !! current_transactions (submit_all self ts)
    = Some (pool ++ map submitted ts) /\
  chain (submit_all self ts) = chain self.
Proof.
  induction ts as [|t ts IH]; intros self pool Hpool.
  - cbn [submit_all foldl map]. now rewrite app_nil_r.
  - change (submit_all self (t :: ts)) with (submit_all (submit self t) ts).
    destruct (IH (submit self t) (pool ++ [submitted t])) as [Hl Hc].
    + cbn [submit new_transaction fst lists current_transactions].
      now rewrite lookup_alter_eq, Hpool.
    + split; [| exact Hc]. rewrite Hl. cbn [map]. now rewrite <- app_assoc.
Qed.

Lemma submit_all_reachable (ts : list (submission float)) self :
  reachable self -> reachable (submit_all self ts).
Proof.
  revert self. induction ts as [|t ts IH]; intros self Hr; [exact Hr |].
  apply IH. now constructor.
Qed.

(** C4: from a reachable state whose pending list is empty, after one
    [new_transaction] per element of [ts] and then one [new_block], the list
    of the new block is exactly the submitted transactions, in order (so of
    length [length ts]), the pending list is empty, and the new block is the
    last of the chain. *)
Theorem submit_then_mint self (ts : list (submission float)) (now : float)
    (proof : PyVal float) (previous_hash : option (PyVal float)) :
  reachable self ->
  lists self !! current_transactions self = Some [] ->
  let minted := call_new_block (submit_all self ts) now proof previous_hash in
  (exists txs : list (PyVal float),
      lists (fst minted) !! transactions (snd minted) = Some txs /\
      txs = map submitted ts /\
      length txs = length ts) /\
  lists (fst minted) !! current_transactions (fst minted) = Some [] /\
  chain (fst minted) = chain self ++ [snd minted].
Proof.
  intros Hr Hempty minted.
  destruct (submit_all_pending ts self [] Hempty) as [Hpool Hchain].
  cbn [app] in Hpool.
  pose proof (reachable_inv _ (submit_all_reachable ts self Hr)) as Hinv.
  subst minted.
  unfold call_new_block; cbn [new_block fst snd lists chain current_transactions transactions].
  split; [| split].
  - exists (map submitted ts). split; [| split; [reflexivity | apply length_map]].
    rewrite lookup_insert_ne; [exact Hpool |].
    intros Heq. symmetry in Heq. revert Heq.
    apply fresh_not_allocated. rewrite Hpool. eauto.
  - apply lookup_insert_eq.
  - now rewrite Hchain.
Qed.

(** ** Chain linkage *)

Lemma linked_reachable self : linked float_repr self -> reachable self.
Proof.
  induction 1 as [now | self sender recipient amount _ IH
                 | self now proof block digest _ IH _ _]; now constructor.
Qed.

(** The amended C1: when every [new_block] after construction is called
    with the hash of the then last block as [previous_hash], every block
    after the first holds, as [previous_hash], the hash of the block before
    it (the hash of that whole block, its own [previous_hash] included). *)
Theorem linked_chain_linked self :
  linked float_repr self -> chain_linked float_repr self.
Proof.
  induction 1 as [now | self sender recipient amount Hl IH
                 | self now proof last_b digest Hl IH Hlast Hhash].
  - intros i prev block _ Hblock. destruct i; discriminate.
  - pose proof (reachable_inv _ (linked_reachable _ Hl)) as Hinv.
    intros i prev block Hprev Hblock.
    rewrite new_transaction_chain in Hprev, Hblock.
    destruct (IH i prev block Hprev Hblock) as (d & Hd & Hph).
    exists d. split; [| exact Hph]. rewrite <- Hd.
    apply (run_hash_block float_repr [NewTransaction sender recipient amount] self i);
      assumption.
  - pose proof (reachable_inv _ (linked_reachable _ Hl)) as Hinv.
    set (o := NewBlock now proof (Some (PStr (py digest)))).
    change (fst (call_new_block self now proof (Some (PStr (py digest)))))
      with (run self [o]).
    intros i prev block Hprev Hblock.
    change (chain (run self [o]))
      with (chain self ++ [snd (call_new_block self now proof (Some (PStr (py digest))))])
      in Hprev, Hblock.
    apply lookup_app_Some in Hblock as [Hold | [Hlen Hnew]].
    + assert (Hprev' : chain self !! i = Some prev).
      { apply lookup_lt_Some in Hold. rewrite lookup_app_l in Hprev by lia. exact Hprev. }
      destruct (IH i prev block Hprev' Hold) as (d & Hd & Hph).
      exists d. split; [| exact Hph]. rewrite <- Hd.
      now apply (run_hash_block float_repr [o] self i).
    + apply list_lookup_singleton_Some in Hnew as [Hz <-].
      assert (Hi : length (chain self) = S i) by lia.
      rewrite lookup_app_l in Hprev by lia.
      assert (prev = last_b) as ->.
      { unfold last_block in Hlast. rewrite last_lookup, Hi in Hlast.
        cbn [pred] in Hlast. rewrite Hprev in Hlast. congruence. }
      exists digest. split; [| reflexivity]. rewrite <- Hhash.
      now apply (run_hash_block float_repr [o] self i).
Qed.

End Minting.

(** ** The scenario, computed *)

Example genesis_dump :
  (dumps repr_whole <$> (last (chain genesis_ledger) ≫= block_value (lists genesis_ledger)))
  = Some (String.append "{"
      (String.append (String.concat ", "
         [String.append dquote (String.append "index" (String.append dquote ": 1"));
          String.append dquote (String.append "previous_hash" (String.append dquote ": 1"));
          String.append dquote (String.append "proof" (String.append dquote ": 100"));
          String.append dquote (String.append "timestamp" (String.append dquote ": 0.0"));
          String.append dquote (String.append "transactions" (String.append dquote ": []"))])
       "}")).
Proof. vm_compute. reflexivity. Qed.

Example genesis_hash :
  (last (chain genesis_ledger) ≫= hash_block repr_whole genesis_ledger)
  = Some "81a44a59637be5d464b5b6b5dba3a1c3613a6ae8f7bdd417876417a2cd3179fd"%string.
Proof. vm_compute. reflexivity. Qed.

Example scenario_block :
  (last (chain scenario_ledger) ≫= fun b =>
     Some (index b, previous_hash b, lists scenario_ledger !! transactions b))
  = Some (2, PStr (py "81a44a59637be5d464b5b6b5dba3a1c3613a6ae8f7bdd417876417a2cd3179fd"),
          Some [transaction (PStr (py "A")) (PStr (py "B")) (PInt 5)]).
Proof. vm_compute. reflexivity. Qed.

Example scenario_hash :
  (last (chain scenario_ledger) ≫= hash_block repr_whole scenario_ledger)
  = Some "3d5acb0c4d775b90e4ead1ce42b7d74f3bf4c89be4e44fe2347ec17626f34581"%string.
Proof. vm_compute. reflexivity. Qed.

Lemma genesis_ledger_reachable : reachable genesis_ledger.
Proof. apply reach_init. Qed.

Lemma scenario_ledger_linked : linked repr_whole scenario_ledger.
Proof.
  unfold scenario_ledger.
  eapply linked_new_block.
  - apply linked_new_transaction, linked_init.
  - reflexivity.
  - vm_compute. reflexivity.
Qed.

(** ** Worked instances *)

Lemma hash_canonical_witness :
  let inner1 : PyVal Z := PDict [(py "sender", PStr (py "A")); (py "amount", PInt 5)] in
  let inner2 : PyVal Z := PDict [(py "amount", PInt 5); (py "sender", PStr (py "A"))] in
  let v1 := PDict [(py "proof", PInt 100); (py "transactions", PList [inner1])] in
  let v2 := PDict [(py "transactions", PList [inner2]); (py "proof", PInt 100)] in
  same_content v1 v2 /\
  hash repr_whole v1 = hash repr_whole v2 /\
  String.length (hash repr_whole v1) = 64%nat /\
  Forall lower_hex (list_ascii_of_string (hash repr_whole v1)).
Proof.
  intros inner1 inner2 v1 v2.
  assert (Hinner : same_content inner1 inner2).
  { eapply same_dict.
    - apply (bool_decide_unpack _). vm_compute. reflexivity.
    - apply perm_swap.
    - constructor; [split; [reflexivity | apply same_refl] |].
      constructor; [split; [reflexivity | apply same_refl] | constructor]. }
  assert (Hsame : same_content v1 v2).
  { eapply same_dict.
    - apply (bool_decide_unpack _). vm_compute. reflexivity.
    - apply perm_swap.
    - constructor; [split; [reflexivity | apply same_list; constructor;
                                           [exact Hinner | constructor]] |].
      constructor; [split; [reflexivity | apply same_refl] | constructor]. }
  split; [exact Hsame | exact (hash_canonical repr_whole v1 v2 Hsame)].
Defined.

Lemma last_block_spec_witness :
  reachable scenario_ledger /\ exists b : Block Z, last_block scenario_ledger = Ok b.
Proof.
  assert (H : reachable scenario_ledger).
  { apply reach_new_block, reach_new_transaction, reach_init. }
  split; [exact H |].
  exact (proj2 (proj2 (proj2 (last_block_spec scenario_ledger))) H).
Defined.

Lemma new_transaction_returns_witness :
  reachable scenario_ledger /\
  snd (new_transaction scenario_ledger (PStr (py "B")) (PStr (py "C")) (PInt 2)) = Ok 3.
Proof.
  assert (H : reachable scenario_ledger).
  { apply reach_new_block, reach_new_transaction, reach_init. }
  split; [exact H |].
  exact (proj1 (new_transaction_returns scenario_ledger
                  (PStr (py "B")) (PStr (py "C")) (PInt 2) H)).
Defined.

Lemma chain_append_only_witness :
  reachable genesis_ledger /\
  forall (ops : list (op Z)) (i : nat) (b : Block Z),
    chain genesis_ledger !! i = Some b ->
    chain (run genesis_ledger ops) !! i = Some b /\
    lists (run genesis_ledger ops) !! transactions b
      = lists genesis_ledger !! transactions b /\
    hash_block repr_whole (run genesis_ledger ops) b = hash_block repr_whole genesis_ledger b.
Proof.
  split; [apply reach_init |].
  exact (proj2 (proj2 (chain_append_only repr_whole genesis_ledger (reach_init 0)))).
Defined.

Lemma submit_then_mint_witness :
  let ts : list (submission Z) :=
    [(PStr (py "A"), PStr (py "B"), PInt 5); (PStr (py "B"), PStr (py "A"), PInt 2)] in
  let minted := call_new_block (submit_all genesis_ledger ts) 1 (PInt 52838) None in
  reachable genesis_ledger /\
  lists genesis_ledger !! current_transactions genesis_ledger = Some [] /\
  (exists txs : list (PyVal Z),
      lists (fst minted) !! transactions (snd minted) = Some txs /\
      txs = map submitted ts /\
      length txs = 2%nat) /\
  lists (fst minted) !! current_transactions (fst minted) = Some [] /\
  chain (fst minted) = chain genesis_ledger ++ [snd minted].
Proof.
  intros ts minted.
  split; [apply reach_init |]. split; [reflexivity |].
  exact (submit_then_mint genesis_ledger ts 1 (PInt 52838) None (reach_init 0) eq_refl).
Defined.

Lemma linked_chain_linked_witness :
  linked repr_whole scenario_ledger /\ chain_linked repr_whole scenario_ledger.
Proof.
  assert (H : linked repr_whole scenario_ledger).
  { unfold scenario_ledger. eapply linked_new_block.
    - apply linked_new_transaction, linked_init.
    - reflexivity.
    - vm_compute. reflexivity. }
  split; [exact H |].
  exact (linked_chain_linked repr_whole scenario_ledger H).
Defined.

(** C1 as stated fails: [new_block] stores the [previous_hash] it is given,
    and the state reached by one call without it has a second block whose
    [previous_hash] is [None], not the hash of the origin block. *)
Lemma chain_linked_counterexample :
  reachable unlinked_ledger /\ ~ chain_linked repr_whole unlinked_ledger.
Proof.
  split.
  - apply reach_new_block, reach_init.
  - intros Hlinked.
    edestruct (Hlinked 0%nat) as (digest & _ & Hph); [reflexivity | reflexivity |].
    discriminate Hph.
Qed.

(** * Further properties *)

(** ** Ownership of the lists, indices, and conservation *)

Section LedgerExtras.

Context {float : Type} (float_repr : float -> string).
Implicit Types (self : Blockchain float) (b : Block float).

Lemma blank_inv : store_inv (@blank float).
Proof.
  split; cbn [blank lists chain current_transactions].
  - rewrite lookup_singleton_eq. eauto.
  - intros b Hin. now apply elem_of_nil in Hin.
  - intros i b Hlook. now rewrite lookup_nil in Hlook.
  - apply NoDup_nil_2.
Qed.

Lemma new_block_owned self now proof previous_hash :
  owned self -> owned (fst (new_block self now proof previous_hash)).
Proof.
  unfold owned. cbn [new_block fst lists chain current_transactions]. intros Hdom.
  rewrite dom_insert_L, Hdom, map_app, list_to_set_app_L.
  cbn [map transactions list_to_set].
  rewrite (right_id_L ∅ (∪)). f_equal. apply (comm_L (∪)).
Qed.

Lemma new_transaction_owned self sender recipient amount :
  owned self -> owned (fst (new_transaction self sender recipient amount)).
Proof.
  unfold owned. cbn [new_transaction fst lists chain current_transactions].
  intros Hdom. now rewrite dom_alter_L.
Qed.

Lemma reachable_owned self : reachable self -> owned self.
Proof.
  induction 1 as [now | self sender recipient amount _ IH | self now proof ph _ IH].
  - unfold init, call_new_block. apply new_block_owned.
    unfold owned. cbn [lists chain current_transactions map list_to_set].
    rewrite dom_singleton_L. set_solver.
  - now apply new_transaction_owned.
  - now apply new_block_owned.
Qed.

(** X1: in every reachable state the pending list and the lists of the
    blocks are pairwise distinct objects, each of them is in the store, and
    the store holds no other list. *)
Theorem reachable_ownership self :
  reachable self ->
  NoDup (current_transactions self :: map transactions (chain self)) /\
  (forall l : loc,
      is_Some (lists self !! l) <->
      l = current_transactions self \/ l ∈ map transactions (chain self)).
Proof.
  intros Hr. pose proof (reachable_inv _ Hr) as [Hp Hb Hi Hd]. split.
  - apply NoDup_cons. split; [| exact Hd].
    intros Hin. apply list_elem_of_fmap in Hin as (b & Heq & Hin).
    destruct (Hb b Hin) as [_ Hne]. congruence.
  - intros l. rewrite <- elem_of_dom, (reachable_owned _ Hr).
    now rewrite elem_of_union, elem_of_singleton, elem_of_list_to_set.
Qed.

Lemma run_inv (ops : list (op float)) : forall self,
  store_inv self -> store_inv (run self ops).
Proof.
  induction ops as [|o ops IH]; intros self Hinv; [exact Hinv |].
  apply IH. now apply step_inv.
Qed.

Lemma run_chain_length (ops : list (op float)) : forall self,
  length (chain (run self ops)) = (length (chain self) + mints ops)%nat.
Proof.
  induction ops as [|o ops IH]; intros self.
  - unfold mints. simpl. lia.
  - change (run self (o :: ops)) with (run (step self o) ops). rewrite IH.
    destruct o as [sender recipient amount | now proof ph]; unfold mints;
      cbn [step new_transaction call_new_block new_block fst chain List.filter is_mint length].
    + reflexivity.
    + rewrite length_app. simpl. lia.
Qed.

(** X2: after construction and any calls, the chain has one block more than
    there were [new_block] calls, and the block at position [i] (from 0) has
    index [i + 1]: the indices are 1, 2, 3, ... without gap or repeat. *)
Theorem chain_indices (now : float) (ops : list (op float)) :
  length (chain (run (init now) ops)) = S (mints ops) /\
  (forall (i : nat) b,
      chain (run (init now) ops) !! i = Some b -> index b = Z.of_nat i + 1).
Proof.
  split.
  - now rewrite run_chain_length.
  - apply inv_index, run_inv, init_inv.
Qed.

Lemma flat_map_ext_in {A B} (f g : A -> list B) (l : list A) :
  (forall a, a ∈ l -> f a = g a) -> flat_map f l = flat_map g l.
Proof.
  induction l as [|a l IH]; intros Hfg; [reflexivity |]. simpl.
  rewrite (Hfg a) by left. rewrite IH; [reflexivity |].
  intros a' Hin. apply Hfg. now right.
Qed.

(** A step adds the submitted transaction, if any, at the end of the
    ledger's transactions and changes nothing else in them. *)
Lemma step_ledger_transactions self (o : op float) :
  store_inv self ->
  ledger_transactions (step self o) = ledger_transactions self ++ op_transactions o.
Proof.
  intros [Hp Hb Hi Hd]. unfold ledger_transactions, pending.
  destruct Hp as [pool Hpool].
  destruct o as [sender recipient amount | now proof ph];
    cbn [step new_transaction call_new_block new_block fst lists chain
         current_transactions op_transactions].
  - rewrite lookup_alter_eq, Hpool. cbn [fmap option_fmap option_map default].
    unfold id. rewrite app_assoc. do 2 f_equal.
    apply flat_map_ext_in. intros b Hin. unfold block_transactions. cbn [lists].
    destruct (Hb b Hin) as [_ Hne]. now rewrite lookup_alter_ne.
  - rewrite lookup_insert_eq, flat_map_app, Hpool. cbn [default from_option flat_map].
    unfold id. rewrite !app_nil_r. f_equal.
    + apply flat_map_ext_in. intros b Hin. unfold block_transactions. cbn [lists].
      destruct (Hb b Hin) as [Hsome _].
      rewrite lookup_insert_ne; [reflexivity |].
      intros Heq. symmetry in Heq. revert Heq. now apply fresh_not_allocated.
    + unfold block_transactions. cbn [lists transactions].
      rewrite lookup_insert_ne, Hpool; [reflexivity |].
      intros Heq. symmetry in Heq. revert Heq.
      apply fresh_not_allocated. rewrite Hpool. eauto.
Qed.

Lemma run_ledger_transactions (ops : list (op float)) : forall self,
  store_inv self ->
  ledger_transactions (run self ops) = ledger_transactions self ++ flat_map op_transactions ops.
Proof.
  induction ops as [|o ops IH]; intros self Hinv.
  - cbn [run foldl flat_map]. now rewrite app_nil_r.
  - change (run self (o :: ops)) with (run (step self o) ops).
    rewrite IH by now apply step_inv.
    rewrite step_ledger_transactions by assumption.
    cbn [flat_map]. now rewrite app_assoc.
Qed.

(** X3: after construction and any calls, the transactions of the blocks,
    in chain order, followed by the pending ones, are exactly the submitted
    transactions in submission order: none is lost, repeated or reordered. *)
Theorem transactions_conserved (now : float) (ops : list (op float)) :
  ledger_transactions (run (init now) ops) = flat_map op_transactions ops.
Proof.
  rewrite run_ledger_transactions by apply init_inv. reflexivity.
Qed.

End LedgerExtras.

(** ** Errors, return values and links *)

Section MoreLedger.

Context {float : Type} (float_repr : float -> string).
Implicit Types (self : Blockchain float) (b : Block float).

(** X4: on an object whose chain is empty, [new_transaction] raises
    [IndexError], and it does so after the append: the transaction is in the
    pending list of the state the call leaves behind. *)
Theorem new_transaction_empty_chain self (sender recipient amount : PyVal float)
    (pool : list (PyVal float)) :
  chain self = [] ->
  lists self !! current_transactions self = Some pool ->
  snd (new_transaction self sender recipient amount) = Raise IndexError /\
  pending (fst (new_transaction self sender recipient amount))
    = pool ++ [transaction sender recipient amount].
Proof.
  intros Hchain Hpool. split.
  - cbn [new_transaction snd]. unfold last_block. cbn [chain]. now rewrite Hchain.
  - unfold pending. cbn [new_transaction fst lists current_transactions].
    now rewrite lookup_alter_eq, Hpool.
Qed.

(** X5: the number [new_transaction] returns is the index of the block the
    transaction ends up in: whatever is submitted afterwards, the next
    [new_block] makes a block with that index, and its list is the pending
    list of before, the transaction, and the later submissions, in order. *)
Theorem new_transaction_index self (sender recipient amount : PyVal float)
    (pool : list (PyVal float)) (ts : list (submission float)) (now : float)
    (proof : PyVal float) (previous_hash : option (PyVal float)) :
  reachable self ->
  lists self !! current_transactions self = Some pool ->
  let self1 := fst (new_transaction self sender recipient amount) in
  let minted := call_new_block (submit_all self1 ts) now proof previous_hash in
  snd (new_transaction self sender recipient amount) = Ok (index (snd minted)) /\
  lists (fst minted) !! transactions (snd minted)
    = Some (pool ++ transaction sender recipient amount :: map submitted ts).
Proof.
  intros Hr Hpool self1 minted.
  assert (Hpool1 : lists self1 !! current_transactions self1
                   = Some (pool ++ [transaction sender recipient amount])).
  { subst self1. cbn [new_transaction fst lists current_transactions].
    now rewrite lookup_alter_eq, Hpool. }
  destruct (submit_all_pending ts self1 _ Hpool1) as [Hall Hchain].
  split.
  - destruct (reachable_last _ Hr) as (bs & b & Heq & Hidx).
    subst minted. unfold call_new_block. cbn [new_block snd index].
    rewrite Hchain. subst self1. cbn [new_transaction fst chain snd].
    unfold last_block. cbn [chain]. rewrite Heq, last_snoc, <- Heq. now rewrite Hidx.
  - subst minted. unfold call_new_block.
    cbn [new_block fst snd lists transactions].
    rewrite lookup_insert_ne.
    + rewrite Hall, <- app_assoc. reflexivity.
    + intros Heq. symmetry in Heq. revert Heq.
      apply fresh_not_allocated. rewrite Hall. eauto.
Qed.

Lemma run_linked_before self (ops : list (op float)) :
  store_inv self ->
  chain_linked float_repr (run self ops) ->
  chain_linked float_repr self.
Proof.
  intros Hinv Hlinked i prev block Hprev Hblock.
  destruct (run_frame ops self i prev Hinv Hprev) as [Hprev' _].
  destruct (run_frame ops self (S i) block Hinv Hblock) as [Hblock' _].
  destruct (Hlinked i prev block Hprev' Hblock') as (d & Hd & Hph).
  exists d. split; [| exact Hph].
  now rewrite <- (run_hash_block float_repr ops self i prev Hinv Hprev).
Qed.

(** X6: later calls cannot repair a link: if the chain is linked after some
    calls, it was linked before them. *)
Theorem chain_linked_before self (ops : list (op float)) :
  reachable self ->
  chain_linked float_repr (run self ops) ->
  chain_linked float_repr self.
Proof.
  intros Hr. apply run_linked_before. now apply reachable_inv.
Qed.

(** X7: in a reachable state, the chain is linked after a [new_block] call
    exactly when it was linked before and the call's [previous_hash] is the
    hash of the last block, as a string. *)
Theorem new_block_linked_iff self (now : float) (proof : PyVal float)
    (previous_hash : option (PyVal float)) :
  reachable self ->
  chain_linked float_repr (fst (call_new_block self now proof previous_hash)) <->
  chain_linked float_repr self /\
  exists (last_b : Block float) (digest : string),
    last_block self = Ok last_b /\
    hash_block float_repr self last_b = Some digest /\
    default PNone previous_hash = PStr (py digest).
Proof.
  intros Hr. pose proof (reachable_inv _ Hr) as Hinv.
  destruct (reachable_last _ Hr) as (bs & last_b & Heq & _).
  set (o := NewBlock now proof previous_hash).
  change (fst (call_new_block self now proof previous_hash)) with (run self [o]).
  assert (Hlast : chain self !! length bs = Some last_b).
  { rewrite Heq. now apply list_lookup_middle. }
  assert (Hlen : length (chain self) = S (length bs)).
  { rewrite Heq, length_app. simpl. lia. }
  assert (Hchain : chain (run self [o])
                   = chain self ++ [snd (call_new_block self now proof previous_hash)])
    by reflexivity.
  split.
  - intros Hlinked. split; [now apply (run_linked_before self [o]) |].
    destruct (Hlinked (length bs) last_b (snd (call_new_block self now proof previous_hash)))
      as (d & Hd & Hph).
    + rewrite Hchain. now apply lookup_app_l_Some.
    + rewrite Hchain, <- Hlen. now apply list_lookup_middle.
    + exists last_b, d. split; [| split].
      * unfold last_block. now rewrite Heq, last_snoc.
      * now rewrite <- (run_hash_block float_repr [o] self (length bs) last_b Hinv Hlast).
      * exact Hph.
  - intros (Hlinked & b' & d & Hb' & Hd & Hph) i prev block Hprev Hblock.
    assert (b' = last_b) as ->.
    { unfold last_block in Hb'. rewrite Heq, last_snoc in Hb'. congruence. }
    rewrite Hchain in Hprev, Hblock.
    apply lookup_app_Some in Hblock as [Hold | [Hge Hnew]].
    + assert (Hprev' : chain self !! i = Some prev).
      { apply lookup_lt_Some in Hold. rewrite lookup_app_l in Hprev by lia. exact Hprev. }
      destruct (Hlinked i prev block Hprev' Hold) as (d' & Hd' & Hph').
      exists d'. split; [| exact Hph']. rewrite <- Hd'.
      now apply (run_hash_block float_repr [o] self i).
    + apply list_lookup_singleton_Some in Hnew as [Hz <-].
      assert (Hi : i = length bs) by lia. subst i.
      rewrite lookup_app_l in Hprev by lia.
      assert (prev = last_b) as -> by congruence.
      exists d. split; [| exact Hph]. rewrite <- Hd.
      now apply (run_hash_block float_repr [o] self (length bs)).
Qed.

End MoreLedger.

(** ** The search, test by test *)

Lemma proof_of_work_loop_sound (last_proof : Z) (fuel : nat) :
  forall p r : Z,
    proof_of_work_loop fuel last_proof p = Some r ->
    p <= r < p + Z.of_nat fuel /\
    is_valid_proof last_proof r = true /\
    (forall q, p <= q < r -> is_valid_proof last_proof q = false).
Proof.
  induction fuel as [|fuel IH]; intros p r Hloop; [discriminate |].
  cbn [proof_of_work_loop] in Hloop.
  destruct (is_valid_proof last_proof p) eqn:Hp.
  - injection Hloop as <-. split; [lia |]. split; [exact Hp |]. intros q Hq. lia.
  - destruct (IH (p + 1) r Hloop) as (Hrange & Hr & Hmin).
    split; [lia |]. split; [exact Hr |].
    intros q Hq. destruct (Z.eq_dec q p) as [-> | Hne]; [exact Hp | apply Hmin; lia].
Qed.

Lemma proof_of_work_loop_exhausted (last_proof : Z) (fuel : nat) :
  forall p : Z,
    proof_of_work_loop fuel last_proof p = None ->
    forall q, p <= q < p + Z.of_nat fuel -> is_valid_proof last_proof q = false.
Proof.
  induction fuel as [|fuel IH]; intros p Hloop q Hq; [lia |].
  cbn [proof_of_work_loop] in Hloop.
  destruct (is_valid_proof last_proof p) eqn:Hp; [discriminate |].
  destruct (Z.eq_dec q p) as [-> | Hne]; [exact Hp |].
  apply (IH (p + 1) Hloop). lia.
Qed.

(** X8: for every number of tests [fuel], with or without a valid proof to
    find: the search returns [r] exactly when [r] is below [fuel], valid, and
    nothing from 0 to [r - 1] is valid; and it is still running after [fuel]
    tests exactly when none of 0, ..., [fuel - 1] is valid.  It never
    returns a negative number or an invalid proof. *)
Theorem proof_of_work_exact (last_proof : Z) (fuel : nat) :
  (forall r : Z,
      proof_of_work fuel last_proof = Some r <->
      0 <= r < Z.of_nat fuel /\
      is_valid_proof last_proof r = true /\
      (forall q : Z, 0 <= q < r -> is_valid_proof last_proof q = false)) /\
  (proof_of_work fuel last_proof = None <->
   forall q : Z, 0 <= q < Z.of_nat fuel -> is_valid_proof last_proof q = false).
Proof.
  unfold proof_of_work. split; [intros r |]; split.
  - intros Hloop. now apply proof_of_work_loop_sound in Hloop.
  - intros (Hrange & Hr & Hmin).
    apply proof_of_work_loop_finds; try assumption; lia.
  - intros Hloop q Hq. apply (proof_of_work_loop_exhausted _ _ _ Hloop). lia.
  - intros Hnone. apply proof_of_work_loop_short with (r := Z.of_nat fuel); [lia |].
    intros q Hq. apply Hnone. lia.
Qed.

(** ** The difficulty, in bits *)

Lemma hexdigit_zero (d : Z) :
  0 <= d < 16 -> Sha256.hexdigit d = "0"%char <-> d = 0.
Proof.
  intros Hd.
  assert (Hcases : d = 0 \/ d = 1 \/ d = 2 \/ d = 3 \/ d = 4 \/ d = 5 \/ d = 6 \/ d = 7 \/
                   d = 8 \/ d = 9 \/ d = 10 \/ d = 11 \/ d = 12 \/ d = 13 \/ d = 14 \/ d = 15)
    by lia.
  repeat (destruct Hcases as [-> | Hcases]; [vm_compute; split; congruence |]).
  subst d. vm_compute. split; congruence.
Qed.

Lemma byte_nibbles_zero (b : Z) :
  0 <= b < 256 ->
  Z.land (Z.shiftr b 4) 15 = 0 /\ Z.land b 15 = 0 <-> b = 0.
Proof.
  intros Hb. change 15 with (Z.ones 4).
  rewrite !Z.land_ones, Z.shiftr_div_pow2 by lia.
  change (2 ^ 4) with 16.
  pose proof (Z.div_mod b 16 ltac:(lia)) as Hdm.
  pose proof (Z.mod_pos_bound b 16 ltac:(lia)) as Hm.
  assert (Hq : 0 <= b / 16 < 16).
  { split; [apply Z.div_pos; lia | apply Z.div_lt_upper_bound; lia]. }
  rewrite (Z.mod_small (b / 16) 16) by lia. split.
  - intros [Hhi Hlo]. lia.
  - intros ->. split; reflexivity.
Qed.

Lemma be_bytes_range (n : nat) (x : Z) :
  Forall (fun b => 0 <= b < 256) (Sha256.be_bytes n x).
Proof.
  unfold Sha256.be_bytes. apply Forall_map, Forall_forall. intros i _.
  change 255 with (Z.ones 8). rewrite Z.land_ones by lia.
  apply Z.mod_pos_bound. reflexivity.
Qed.

Lemma digest_range (msg : list Z) :
  Forall (fun b => 0 <= b < 256) (Sha256.digest msg).
Proof.
  unfold Sha256.digest. cbv zeta.
  repeat (apply Forall_app; split); apply be_bytes_range.
Qed.

Lemma substring_0_0 (s : string) : substring 0 0 s = EmptyString.
Proof. now destruct s. Qed.

(** X9: a proof is valid exactly when the first two bytes of the SHA-256
    digest of its text are zero, that is, when the digest starts with 16
    zero bits. *)
Theorem is_valid_proof_zero_bytes (last_proof proof : Z) :
  is_valid_proof last_proof proof = true <->
  take 2 (Sha256.digest (encode (String.append (str_int proof) (str_int last_proof))))
  = [0; 0].
Proof.
  unfold is_valid_proof, Sha256.hexdigest. cbv zeta.
  set (msg := encode _).
  pose proof (digest_length msg) as Hlen.
  pose proof (digest_range msg) as Hrange.
  destruct (Sha256.digest msg) as [|b0 [|b1 rest]]; try discriminate Hlen.
  apply Forall_cons in Hrange as [Hb0 Hrange].
  apply Forall_cons in Hrange as [Hb1 _].
  cbn [flat_map Sha256.hex_byte app string_of_list_ascii substring take].
  rewrite substring_0_0, String.eqb_eq.
  pose proof (hexdigit_zero _ (land_15_range (Z.shiftr b0 4))) as H0h.
  pose proof (hexdigit_zero _ (land_15_range b0)) as H0l.
  pose proof (hexdigit_zero _ (land_15_range (Z.shiftr b1 4))) as H1h.
  pose proof (hexdigit_zero _ (land_15_range b1)) as H1l.
  pose proof (byte_nibbles_zero b0 Hb0) as Hz0.
  pose proof (byte_nibbles_zero b1 Hb1) as Hz1.
  split.
  - intros Heq. injection Heq as E0 E1 E2 E3.
    apply H0h in E0. apply H0l in E1. apply H1h in E2. apply H1l in E3.
    f_equal; [tauto | f_equal; tauto].
  - intros Heq. injection Heq as -> ->. reflexivity.
Qed.

(** ** The sorted items *)

Lemma insert_item_perm {V} (a : pystr * V) (l : list (pystr * V)) :
  insert_item a l ≡ₚ a :: l.
Proof.
  induction l as [|c l IH]; cbn [insert_item]; [reflexivity |].
  destruct (pystr_leb (fst a) (fst c)); [reflexivity |].
  rewrite IH. apply perm_swap.
Qed.

Lemma insert_item_sorted {V} (a : pystr * V) (l : list (pystr * V)) :
  StronglySorted item_le l -> StronglySorted item_le (insert_item a l).
Proof.
  induction 1 as [| c l Hsorted IH Hall]; cbn [insert_item].
  - constructor; constructor.
  - destruct (pystr_leb (fst a) (fst c)) eqn:Hac.
    + constructor; [now constructor |].
      constructor; [exact Hac |].
      eapply Forall_impl; [exact Hall |].
      intros x Hcx. unfold item_le in *. eapply pystr_leb_trans; eassumption.
    + constructor; [exact IH |].
      rewrite insert_item_perm. constructor; [| exact Hall].
      now apply pystr_leb_total.
Qed.

Lemma sorted_items_perm_self {V} (d : list (pystr * V)) : sorted_items d ≡ₚ d.
Proof.
  unfold sorted_items. induction d as [|a d IH]; cbn [foldr]; [reflexivity |].
  now rewrite insert_item_perm, IH.
Qed.

(** X10: the items a dict is dumped with are the dict's items, each exactly
    once, in non-decreasing order of their keys (code point by code
    point). *)
Theorem sorted_items_sorted {V} (d : list (pystr * V)) :
  sorted_items d ≡ₚ d /\ StronglySorted item_le (sorted_items d).
Proof.
  unfold sorted_items. induction d as [|a d [IHp IHs]]; cbn [foldr].
  - split; [reflexivity | constructor].
  - split; [now rewrite insert_item_perm, IHp | now apply insert_item_sorted].
Qed.

(** ** The dump is printable ASCII *)

Lemma list_ascii_of_string_append (a b : string) :
  list_ascii_of_string (String.append a b)
  = list_ascii_of_string a ++ list_ascii_of_string b.
Proof. induction a as [|c a IH]; simpl; [reflexivity | now rewrite IH]. Qed.

Lemma ascii_text_append (a b : string) :
  ascii_text (String.append a b) = ascii_text a && ascii_text b.
Proof.
  unfold ascii_text. now rewrite list_ascii_of_string_append, forallb_app.
Qed.

Lemma ascii_text_concat (sep : string) (l : list string) :
  ascii_text sep = true ->
  Forall (fun s => ascii_text s = true) l ->
  ascii_text (String.concat sep l) = true.
Proof.
  intros Hsep. induction 1 as [|s l Hs Hl IH]; [reflexivity |].
  cbn [String.concat]. destruct l as [|s' l]; [exact Hs |].
  rewrite !ascii_text_append, Hs, Hsep. exact IH.
Qed.

Lemma ascii_text_uint (d : Decimal.uint) :
  ascii_text (NilEmpty.string_of_uint d) = true.
Proof. induction d; [reflexivity | exact IHd ..]. Qed.

Lemma ascii_text_str_int (n : Z) : ascii_text (str_int n) = true.
Proof.
  assert (Hu : forall d, ascii_text (NilZero.string_of_uint d) = true).
  { intros d. unfold NilZero.string_of_uint.
    destruct d; try reflexivity; apply (ascii_text_uint (_ d)). }
  unfold str_int, NilZero.string_of_int.
  destruct (Z.to_int n) as [d | d]; [apply Hu | exact (Hu d)].
Qed.

Lemma printable_hexdigit (d : Z) : 0 <= d < 16 -> printable (Sha256.hexdigit d) = true.
Proof.
  intros Hd. pose proof (hexdigit_lower_hex d Hd) as Hin. unfold lower_hex in Hin.
  cbn [list_ascii_of_string In] in Hin.
  repeat (destruct Hin as [<- | Hin]; [reflexivity |]). contradiction.
Qed.

Lemma ascii_text_hex4 (n : N) : ascii_text (hex4 n) = true.
Proof.
  unfold hex4, ascii_text. cbv zeta.
  rewrite list_ascii_of_string_of_list_ascii. cbn [forallb].
  rewrite !printable_hexdigit by apply land_15_range. reflexivity.
Qed.

Lemma ascii_text_escape_char (c : N) : ascii_text (escape_char c) = true.
Proof.
  unfold escape_char.
  repeat (match goal with |- context [if ?b then _ else _] => destruct b eqn:? end;
          try reflexivity).
  - unfold ascii_text, printable. cbn [list_ascii_of_string forallb].
    match goal with H : (_ && _)%bool = true |- _ => apply andb_true_iff in H as [Hlo Hhi] end.
    apply N.leb_le in Hlo, Hhi.
    rewrite N_ascii_embedding by lia.
    apply N.leb_le in Hlo, Hhi. now rewrite Hlo, Hhi.
  - rewrite ascii_text_append, ascii_text_hex4. reflexivity.
  - cbv zeta. rewrite !ascii_text_append, !ascii_text_hex4. reflexivity.
Qed.

Lemma ascii_text_basestring (s : pystr) : ascii_text (encode_basestring_ascii s) = true.
Proof.
  unfold encode_basestring_ascii. rewrite !ascii_text_append.
  rewrite ascii_text_concat; [reflexivity .. |].
  apply Forall_map, Forall_forall. intros c _. apply ascii_text_escape_char.
Qed.

Lemma insert_item_Forall {V} (P : pystr * V -> Prop) (a : pystr * V) (l : list (pystr * V)) :
  P a -> Forall P l -> Forall P (insert_item a l).
Proof. intros Ha Hl. rewrite insert_item_perm. now constructor. Qed.

Lemma sorted_items_Forall {V} (P : pystr * V -> Prop) (d : list (pystr * V)) :
  Forall P d -> Forall P (sorted_items d).
Proof.
  intros Hd. pose proof (sorted_items_perm_self d) as Hp. now rewrite Hp.
Qed.

Section DumpText.

Context {float : Type} (float_repr : float -> string).

Lemma encode_printable (s : string) :
  ascii_text s = true -> Forall (fun byte => 32 <= byte <= 126) (encode s).
Proof.
  unfold ascii_text, encode. intros Hs. apply Forall_map, Forall_forall.
  intros c Hc. apply list_elem_of_In in Hc.
  rewrite forallb_forall in Hs. specialize (Hs c Hc). unfold printable in Hs.
  apply andb_true_iff in Hs as [Hlo Hhi]. apply N.leb_le in Hlo, Hhi. cbv zeta. lia.
Qed.

Lemma ascii_text_dumps :
  (forall x : float, ascii_text (float_repr x) = true) ->
  forall v : PyVal float, ascii_text (dumps float_repr v) = true.
Proof.
  intros Hfloat. fix IH 1. intros v.
  destruct v as [| [|] | n | x | s | l | d]; cbn [dumps]; try reflexivity.
  - apply ascii_text_str_int.
  - apply Hfloat.
  - apply ascii_text_basestring.
  - rewrite !ascii_text_append.
    rewrite ascii_text_concat; [reflexivity .. |].
    apply Forall_map. induction l as [|v l IHl]; constructor; [apply IH | exact IHl].
  - cbv zeta. rewrite !ascii_text_append.
    rewrite ascii_text_concat; [reflexivity .. |].
    apply Forall_map, sorted_items_Forall.
    apply Forall_map. induction d as [|[k v] d IHd]; constructor; [| exact IHd].
    unfold dump_item. cbn [fst snd].
    now rewrite !ascii_text_append, ascii_text_basestring, IH.
Qed.

(** X11: when the [repr] of floats is printable ASCII, so is the dump of
    every value, whatever code points its strings hold (they are escaped):
    the bytes [hash] feeds to SHA-256 are all between 32 and 126, one per
    character of the dump. *)
Theorem dumps_printable (v : PyVal float) :
  (forall x : float, ascii_text (float_repr x) = true) ->
  ascii_text (dumps float_repr v) = true /\
  Forall (fun byte => 32 <= byte <= 126) (encode (dumps float_repr v)) /\
  length (encode (dumps float_repr v)) = String.length (dumps float_repr v).
Proof.
  intros Hfloat. pose proof (ascii_text_dumps Hfloat v) as Hv.
  split; [exact Hv |]. split; [now apply encode_printable |].
  unfold encode. rewrite length_map.
  generalize (dumps float_repr v). intros s.
  induction s as [|c s IHs]; simpl; [reflexivity | now rewrite IHs].
Qed.

(** X12: the text [hash] digests for a block: the five fields in the order
    index, previous_hash, proof, timestamp, transactions, whatever the
    order of the dict literal, separated by a comma and a space. *)
Theorem block_dump_format (h : gmap loc (list (PyVal float))) (b : Block float)
    (txs : list (PyVal float)) :
  h !! transactions b = Some txs ->
  dumps float_repr <$> block_value h b
  = Some (String.append "{"
      (String.append (String.concat ", "
         [json_field "index" (str_int (index b));
          json_field "previous_hash" (dumps float_repr (previous_hash b));
          json_field "proof" (dumps float_repr (proof b));
          json_field "timestamp" (float_repr (timestamp b));
          json_field "transactions" (dumps float_repr (PList txs))])
       "}")).
Proof.
  intros Htxs. unfold block_value. rewrite Htxs. reflexivity.
Qed.

End DumpText.

(** ** The hashed text of a proof *)

Lemma to_int_not_nil (n : Z) :
  Z.to_int n <> Decimal.Pos Decimal.Nil /\ Z.to_int n <> Decimal.Neg Decimal.Nil.
Proof.
  destruct n as [|p|p]; cbn [Z.to_int]; split; try discriminate;
    intros [= Hnil]; exact (DecimalPos.Unsigned.to_uint_nonnil p Hnil).
Qed.

(** [int(str(n)) == n]: the decimal text of an integer reads back as that
    integer, so different integers have different texts. *)
Lemma str_int_round_trip (n : Z) : int_of_str (str_int n) = Some n.
Proof.
  unfold int_of_str, str_int. destruct (to_int_not_nil n) as [Hpos Hneg].
  rewrite NilZero.isi by assumption.
  cbn [fmap option_fmap option_map]. now rewrite DecimalZ.of_to.
Qed.

Lemma str_int_inj (n m : Z) : str_int n = str_int m -> n = m.
Proof.
  intros Heq. pose proof (str_int_round_trip n) as Hn.
  rewrite Heq, str_int_round_trip in Hn. congruence.
Qed.

Lemma append_inv_head (a b c : string) :
  String.append a b = String.append a c -> b = c.
Proof. induction a as [|x a IH]; simpl; [tauto | intros [= H]; auto]. Qed.

Lemma append_inv_tail (a b c : string) :
  String.append a c = String.append b c -> a = b.
Proof.
  intros Heq. apply (f_equal list_ascii_of_string) in Heq.
  rewrite !list_ascii_of_string_append in Heq. apply app_inv_tail in Heq.
  rewrite <- (string_of_list_ascii_of_string a), <- (string_of_list_ascii_of_string b).
  now rewrite Heq.
Qed.

(** X13: [is_valid_proof] hashes [proof_text]; for one [last_proof]
    different proofs give different texts, and for one [proof] different
    last proofs do; but the two numbers together are not determined by the
    text, as there is no separator: proof 1 after 23 and proof 12 after 3
    are hashed as the same text and so are valid or not together. *)
Theorem proof_text_injective :
  (forall last_proof proof : Z,
      is_valid_proof last_proof proof
      = String.eqb (substring 0 4 (Sha256.hexdigest (encode (proof_text last_proof proof))))
          "0000") /\
  (forall last_proof p q : Z,
      proof_text last_proof p = proof_text last_proof q -> p = q) /\
  (forall proof l l' : Z,
      proof_text l proof = proof_text l' proof -> l = l') /\
  proof_text 23 1 = proof_text 3 12 /\
  is_valid_proof 23 1 = is_valid_proof 3 12.
Proof.
  assert (Htext : proof_text 23 1 = proof_text 3 12) by (vm_compute; reflexivity).
  split; [reflexivity |]. split; [| split; [| split; [exact Htext |]]].
  - intros last_proof p q Heq. unfold proof_text in Heq.
    now apply append_inv_tail, str_int_inj in Heq.
  - intros proof l l' Heq. unfold proof_text in Heq.
    now apply append_inv_head, str_int_inj in Heq.
  - unfold is_valid_proof. fold (proof_text 23 1). fold (proof_text 3 12).
    now rewrite Htext.
Qed.

(** ** Worked instances of the further properties *)

Lemma reachable_ownership_witness :
  reachable scenario_ledger /\
  NoDup (current_transactions scenario_ledger :: map transactions (chain scenario_ledger)) /\
  (forall l : loc,
      is_Some (lists scenario_ledger !! l) <->
      l = current_transactions scenario_ledger \/
      l ∈ map transactions (chain scenario_ledger)).
Proof.
  assert (H : reachable scenario_ledger).
  { apply reach_new_block, reach_new_transaction, reach_init. }
  split; [exact H | exact (reachable_ownership scenario_ledger H)].
Defined.

Lemma chain_indices_witness :
  let ops : list (op Z) :=
    [NewTransaction (PStr (py "A")) (PStr (py "B")) (PInt 5); NewBlock 1 (PInt 7) None;
     NewBlock 2 (PInt 8) None] in
  length (chain (run (init 0) ops)) = 3%nat /\
  (index <$> chain (run (init 0) ops) !! 2%nat) = Some 3.
Proof.
  intros ops. split; [exact (proj1 (chain_indices 0 ops)) |].
  destruct (chain (run (init 0) ops) !! 2%nat) as [b |] eqn:Hb; [| discriminate Hb].
  cbn [fmap option_fmap option_map]. f_equal.
  exact (proj2 (chain_indices 0 ops) 2%nat b Hb).
Defined.

Lemma new_transaction_empty_chain_witness :
  chain (@blank Z) = [] /\
  lists (@blank Z) !! current_transactions (@blank Z) = Some [] /\
  snd (new_transaction (@blank Z) (PStr (py "A")) (PStr (py "B")) (PInt 5))
    = Raise IndexError /\
  pending (fst (new_transaction (@blank Z) (PStr (py "A")) (PStr (py "B")) (PInt 5)))
    = [transaction (PStr (py "A")) (PStr (py "B")) (PInt 5)].
Proof.
  split; [reflexivity |]. split; [reflexivity |].
  exact (new_transaction_empty_chain blank (PStr (py "A")) (PStr (py "B")) (PInt 5) []
           eq_refl eq_refl).
Defined.

Lemma new_transaction_index_witness :
  let later : list (submission Z) := [(PStr (py "B"), PStr (py "A"), PInt 2)] in
  let self1 := fst (new_transaction genesis_ledger (PStr (py "A")) (PStr (py "B")) (PInt 5)) in
  let minted := call_new_block (submit_all self1 later) 1 (PInt 7) None in
  reachable genesis_ledger /\
  lists genesis_ledger !! current_transactions genesis_ledger = Some [] /\
  snd (new_transaction genesis_ledger (PStr (py "A")) (PStr (py "B")) (PInt 5))
    = Ok (index (snd minted)) /\
  lists (fst minted) !! transactions (snd minted)
    = Some ([] ++ transaction (PStr (py "A")) (PStr (py "B")) (PInt 5) :: map submitted later).
Proof.
  intros later self1 minted.
  split; [apply reach_init |]. split; [reflexivity |].
  exact (new_transaction_index genesis_ledger (PStr (py "A")) (PStr (py "B")) (PInt 5)
           [] later 1 (PInt 7) None (reach_init 0) eq_refl).
Defined.

Lemma chain_linked_before_witness :
  let ops : list (op Z) := [NewTransaction (PStr (py "B")) (PStr (py "A")) (PInt 2)] in
  reachable scenario_ledger /\
  chain_linked repr_whole (run scenario_ledger ops) /\
  chain_linked repr_whole scenario_ledger.
Proof.
  intros ops.
  assert (Hr : reachable scenario_ledger).
  { apply reach_new_block, reach_new_transaction, reach_init. }
  assert (Hl : chain_linked repr_whole (run scenario_ledger ops)).
  { intros i prev block Hprev Hblock.
    destruct i as [|i]; [| destruct i; vm_compute in Hblock; discriminate Hblock].
    vm_compute in Hprev, Hblock. injection Hprev as <-. injection Hblock as <-.
    exists "81a44a59637be5d464b5b6b5dba3a1c3613a6ae8f7bdd417876417a2cd3179fd"%string.
    split; vm_compute; reflexivity. }
  split; [exact Hr |]. split; [exact Hl |].
  exact (chain_linked_before repr_whole scenario_ledger ops Hr Hl).
Defined.

Lemma new_block_linked_iff_witness :
  reachable pending_ledger /\ chain_linked repr_whole scenario_ledger.
Proof.
  assert (Hr : reachable pending_ledger).
  { apply reach_new_transaction, reach_init. }
  split; [exact Hr |].
  apply (proj2 (new_block_linked_iff repr_whole pending_ledger 1 (PInt 52838)
                  (Some (PStr (py "81a44a59637be5d464b5b6b5dba3a1c3613a6ae8f7bdd417876417a2cd3179fd")))
                  Hr)).
  split.
  - intros i prev block _ Hblock. destruct i; vm_compute in Hblock; discriminate Hblock.
  - eexists _, _. split; [reflexivity |]. split; [vm_compute; reflexivity | reflexivity].
Defined.

Lemma dumps_printable_witness :
  let v : PyVal Z :=
    PDict [(py "timestamp", PFloat 17); (py "sender", PStr [233%N; 0x1F600%N; 10%N])] in
  (forall x : Z, ascii_text (repr_whole x) = true) /\
  ascii_text (dumps repr_whole v) = true /\
  Forall (fun byte => 32 <= byte <= 126) (encode (dumps repr_whole v)) /\
  length (encode (dumps repr_whole v)) = String.length (dumps repr_whole v).
Proof.
  intros v.
  assert (H : forall x : Z, ascii_text (repr_whole x) = true).
  { intros x. unfold repr_whole. now rewrite ascii_text_append, ascii_text_str_int. }
  split; [exact H | exact (dumps_printable repr_whole v H)].
Defined.

Lemma block_dump_format_witness :
  let b := snd (call_new_block (@blank Z) 0 (PInt 100) (Some (PInt 1))) in
  lists genesis_ledger !! transactions b = Some [] /\
  dumps repr_whole <$> block_value (lists genesis_ledger) b
  = Some (String.append "{"
      (String.append (String.concat ", "
         [json_field "index" "1"; json_field "previous_hash" "1"; json_field "proof" "100";
          json_field "timestamp" "0.0"; json_field "transactions" "[]"])
       "}")).
Proof.
  intros b. split; [reflexivity |].
  exact (block_dump_format repr_whole (lists genesis_ledger) b [] eq_refl).
Defined.
